(** * pwndbg: pointer chains ([pwndbg/chain.py]) and the windbg-style
    dump and patch commands ([pwndbg/commands/windbg.py]).

    The Python functions are embedded as Rocq functions.  Python integers
    are [Z], Python lists are [list], text is [string], byte strings are
    [list byte].  Exceptions are values of [exn] carried by [result]. *)

From Stdlib Require Import ZArith List String Ascii Lia HexString.
From Stdlib.Strings Require Import Byte.
From stdpp Require Import base list gmap.

Local Open Scope Z_scope.

(** ** Exceptions and the error monad *)

Inductive exn : Type :=
| MemoryError    (* gdb.MemoryError *)
| KeyError       (* a dict lookup with a missing key *)
| IndexError     (* a list index out of range *)
| BinasciiError  (* codecs.decode(_, 'hex') on a malformed string *)
| OverflowError. (* an int too large to convert to float *)

Inductive result (A : Type) : Type :=
| Ok (a : A)
| Raise (e : exn).

Arguments Ok {A} a.
Arguments Raise {A} e.

#[global] Instance result_ret : MRet result := fun A a => Ok a.

#[global] Instance result_bind : MBind result := fun A B k r =>
  match r with
  | Ok a => k a
  | Raise e => Raise e
  end.

(** ** Python list and string primitives used by the sources *)

Definition len {A : Type} (l : list A) : Z := Z.of_nat (length l).

(** [l.count(x)] on a list of integers. *)
Definition py_count (l : list Z) (x : Z) : Z :=
  Z.of_nat (count_occ Z.eq_dec l x).

(** [l[i]], with Python's negative indices; out of range raises. *)
Definition py_index {A : Type} (l : list A) (i : Z) : result A :=
  let j := if i <? 0 then len l + i else i in
  if (j <? 0) || (len l <=? j) then Raise IndexError
  else match nth_error l (Z.to_nat j) with
       | Some a => Ok a
       | None => Raise IndexError
       end.

(** One bound of a slice, clamped to the list as Python does. *)
Definition py_clamp (n i : Z) : Z :=
  if i <? 0 then Z.max 0 (n + i) else Z.min i n.

(** [l[lo:hi]]. *)
Definition py_slice {A : Type} (l : list A) (lo hi : Z) : list A :=
  let a := py_clamp (len l) lo in
  let b := py_clamp (len l) hi in
  firstn (Z.to_nat (b - a)) (skipn (Z.to_nat a) l).

(** [sep.join(parts)]. *)
Fixpoint join (sep : string) (parts : list string) : string :=
  match parts with
  | [] => EmptyString
  | [p] => p
  | p :: ps => String.append p (String.append sep (join sep ps))
  end.

(** [c * n] for a one-character string [c]. *)
Fixpoint replicate_char (n : nat) (c : ascii) : string :=
  match n with
  | O => EmptyString
  | S k => String c (replicate_char k c)
  end.

(** [s.rjust(width, fill)]: pads on the left; a string that is already
    [width] characters or longer is returned as it is. *)
Definition rjust (width : Z) (fill : ascii) (s : string) : string :=
  String.append
    (replicate_char (Z.to_nat (width - Z.of_nat (String.length s))) fill) s.

(** ["%x" % n]. *)
Definition pct_x (n : Z) : string :=
  match n with
  | Z0 => "0"%string
  | Zpos p => HexString.Raw.of_pos p EmptyString
  | Zneg p => String "-"%char (HexString.Raw.of_pos p EmptyString)
  end.

(** ["%#x" % n]. *)
Definition pct_hash_x (n : Z) : string := HexString.of_Z n.

(** [codecs.decode(s, 'hex')]: two hexadecimal digits per byte, either
    case; an odd length or another character raises. *)
Definition byte_of_nibbles (hi lo : N) : byte :=
  byte_of_ascii (ascii_of_N (16 * hi + lo)).

Fixpoint decode_hex (s : string) : result (list byte) :=
  match s with
  | EmptyString => Ok []
  | String _ EmptyString => Raise BinasciiError
  | String a (String b rest) =>
      match HexString.ascii_to_digit a, HexString.ascii_to_digit b with
      | Some hi, Some lo =>
          bs ← decode_hex rest; Ok (byte_of_nibbles hi lo :: bs)
      | _, _ => Raise BinasciiError
      end
  end.

(** A string of hexadecimal digits, as [codecs.decode(_, 'hex')] reads
    them. *)
Fixpoint is_hex (s : string) : bool :=
  match s with
  | EmptyString => true
  | String c rest =>
      match HexString.ascii_to_digit c with
      | Some _ => is_hex rest
      | None => false
      end
  end.

(** ** The debugger's memory, as the sources use it

    [pwndbg.memory], [pwndbg.typeinfo] and [pwndbg.arch] are the host
    debugger's side and are taken as an interface: a read of a typed
    integer that may raise [gdb.MemoryError] ([None]), a write of a byte
    string that may raise it too, and the pointer width. *)

Inductive ctype : Type := uint8 | uint16 | uint32 | uint64 | ppvoid.

Class MemoryPort (Mem : Type) : Type := {
  ptrsize : Z;
  poi : Mem -> ctype -> Z -> option Z;
  write : Mem -> Z -> list byte -> option Mem
}.

(** ** pwndbg/chain.py *)

Module chain.

Definition LIMIT : Z := 5.

Section Chain.
Context {Mem : Type} {port : MemoryPort Mem}.
Variable m : Mem.

(** The body of [for i in range(limit)] in [get], run [n] more times from
    the accumulated [result] and the current [address]. *)
Fixpoint get_loop (n : nat) (result : list Z) (address : Z) : list Z :=
  match n with
  | O => result
  | S n' =>
      if 2 <=? py_count result address then result
      else
        let result := result ++ [address] in
        match poi m ppvoid address with
        | Some v => get_loop n' result v
        | None => result
        end
  end.

Definition get (address : Z) (limit : Z) : list Z :=
  get_loop (Z.to_nat limit) [] address.

(** The collaborators of [format]: [pwndbg.enhance.enhance],
    [pwndbg.symbol.get] and [pwndbg.color.get]. *)
Variable enhance : Z -> string.
Variable symbol_get : Z -> string.
Variable color_get : Z -> option string -> string.

(** [x or None] on a string. *)
Definition or_None (s : string) : option string :=
  match s with
  | EmptyString => None
  | _ => Some s
  end.

(** One element of [rest] in [format]. *)
Definition format_link (link : Z) : string :=
  let symbol := or_None (symbol_get link) in
  let symbol :=
    match symbol with
    | Some s =>
        Some (String.append (pct_hash_x link)
                (String.append " (" (String.append s ")")))
    | None => None
    end in
  color_get link symbol.

(** The choice of the text [enhanced] in [format], together with the
    arguments [enhance] was called with. *)
Definition format_enhanced (chain : list Z) : list Z * result string :=
  if len chain =? 1 then
    match py_index chain (-1) with
    | Ok a => ([a], Ok (enhance a))
    | Raise e => ([], Raise e)
    end
  else if len chain <? LIMIT then
    match py_index chain (-2) with
    | Ok a => ([a], Ok (enhance a))
    | Raise e => ([], Raise e)
    end
  else ([], Ok "..."%string).

(** [format(value)]: the arguments [enhance] was called with, in order,
    and the text returned (or the exception raised). *)
Definition format (value : Z) : list Z * result string :=
  let chain := get value LIMIT in
  let '(calls, enhanced) := format_enhanced chain in
  (calls,
   enhanced ← enhanced;
   let rest := map format_link (py_slice chain 0 (-1)) in
   if len chain =? 1 then Ok enhanced
   else Ok (String.append (join " --> " rest)
              (String.append " <-- " enhanced))).

End Chain.
End chain.

(** ** pwndbg/commands/windbg.py *)

Module windbg.

(** [get_type(size)]: a dict lookup, [KeyError] outside 1, 2, 4, 8. *)
Definition get_type (size : Z) : result ctype :=
  if size =? 1 then Ok uint8
  else if size =? 2 then Ok uint16
  else if size =? 4 then Ok uint32
  else if size =? 8 then Ok uint64
  else Raise KeyError.

(** [enhex(size, value)]. *)
Definition enhex (size value : Z) : string :=
  let x := pct_x (Z.abs value) in
  rjust (size * 2) "0" x.

(** [range(n)]. *)
Definition range (n : Z) : list Z := map Z.of_nat (seq 0 (Z.to_nat n)).

(** The double nearest to an integer [x >= 0], ties to even, as an integer
    again: 53 significant bits are kept. *)
Definition round_to_double (x : Z) : Z :=
  let e := Z.log2 x + 1 in
  if e <=? 53 then x
  else
    let s := e - 53 in
    let q := x / 2 ^ s in
    let r := x mod 2 ^ s in
    let half := 2 ^ (s - 1) in
    let q := if (half <? r) || ((r =? half) && Z.odd q) then q + 1 else q in
    q * 2 ^ s.

(** The conversion of an int to a float, as in [x / float(16)]: the
    nearest double, or [OverflowError] when that is 2^1024 or more in
    magnitude.  The float is given by its value, an integer. *)
Definition py_float (x : Z) : result Z :=
  let v := Z.sgn x * round_to_double (Z.abs x) in
  if Z.abs v <? 2 ^ 1024 then Ok v else Raise OverflowError.

(** [int(math.ceil(y / 16.0))] for a float [y] of integer value: dividing
    a double by 16 and taking the ceiling are both exact. *)
Definition ceil16 (y : Z) : Z := - ((- y) / 16).

(** [n_rows = int(math.ceil(count * size / float(16)))]. *)
Definition n_rows (count size : Z) : result Z :=
  y ← py_float (count * size);
  Ok (ceil16 y).

Section Windbg.
Context {Mem : Type} {port : MemoryPort Mem}.

(** The read loop of [dX]: [n] more iterations of [for i in range(count)]
    from index [i], with the [values] read so far. *)
Fixpoint dX_read (m : Mem) (type : ctype) (size address : Z)
    (n : nat) (i : Z) (values : list Z) : list Z :=
  match n with
  | O => values
  | S n' =>
      match poi m type (address + i * size) with
      | Some gval => dX_read m type size address n' (i + 1) (values ++ [gval])
      | None => values
      end
  end.

(** [values] after the loop. *)
Definition dX_values (m : Mem) (type : ctype) (size address count : Z)
  : list Z :=
  dX_read m type size address (Z.to_nat count) 0 [].

(** [rows]: [16 / size] is an integer division in Python 2 and a float
    truncated by [int] in Python 3; both are the quotient for the sizes
    [get_type] accepts. *)
Definition dX_rows (values : list Z) (size n_rows : Z) : list (list Z) :=
  let row_sz := 16 / size in
  map (fun i => py_slice values (i * row_sz) ((i + 1) * row_sz)) (range n_rows).

(** One element of [lines], for the row [row] at index [i]. *)
Definition dX_line (size address : Z) (i : nat) (row : list Z) : string :=
  let line := enhex ptrsize (address + Z.of_nat i + 16)
              :: map (enhex size) row in
  join " " line.

(** [dX(size, address, count)]: the list [lines] it returns (what it
    prints when [to_string] is false is the same lines). *)
Definition dX (m : Mem) (size address count : Z) : result (list string) :=
  type ← get_type size;
  let values := dX_values m type size address count in
  n_rows ← n_rows count size;
  let rows := dX_rows values size n_rows in
  Ok (imap (dX_line size address) rows).

(** [pwndbg.commands.fix], which resolves the command's address argument. *)
Context {Arg : Type}.
Variable commands_fix : Arg -> Z.

(** What a run of [eX] leaves behind: the memory, the writes it attempted
    in order (target address and bytes), and how it ended. *)
Record run : Type := {
  final : Mem;
  attempts : list (Z * list byte);
  outcome : result unit
}.

(** The bytes [eX] writes for one item. *)
Definition eX_bytes (size : Z) (hex : bool) (bytestr : string)
  : result (list byte) :=
  if hex then
    let bytestr := rjust (size * 2) "0" bytestr in
    decode_hex bytestr
  else Ok (list_byte_of_string bytestr).

(** The loop [for i, bytestr in enumerate(data)] of [eX], from index [i]. *)
Fixpoint eX_loop (size address : Z) (hex : bool) (i : Z)
    (data : list string) (m : Mem) (log : list (Z * list byte)) : run :=
  match data with
  | [] => {| final := m; attempts := log; outcome := Ok tt |}
  | bytestr :: data' =>
      match eX_bytes size hex bytestr with
      | Raise e => {| final := m; attempts := log; outcome := Raise e |}
      | Ok bytes =>
          let target := address + i * size in
          match write m target bytes with
          | None =>
              {| final := m; attempts := log ++ [(target, bytes)];
                 outcome := Raise MemoryError |}
          | Some m' =>
              eX_loop size address hex (i + 1) data' m'
                (log ++ [(target, bytes)])
          end
      end
  end.

(** [eX(size, address, data, hex)]. *)
Definition eX (m : Mem) (size : Z) (address : Arg) (data : list string)
    (hex : bool) : run :=
  let address := commands_fix address in
  eX_loop size address hex 0 data m [].

(** [db], [dw], [dd], [dq]: [count] is optional, with the defaults 64, 32,
    16 and 8. *)
Definition db (m : Mem) (address : Z) (count : option Z)
  : result (list string) := dX m 1 address (default 64 count).




(** [eb], [ew], [ed], [eq]: the hexadecimal items of the command line. *)
Definition eb (m : Mem) (address : Arg) (data : list string) : run :=
  eX m 1 address data true.

Definition ew (m : Mem) (address : Arg) (data : list string) : run :=
  eX m 2 address data true.

Definition ed (m : Mem) (address : Arg) (data : list string) : run :=
  eX m 4 address data true.

Definition eq (m : Mem) (address : Arg) (data : list string) : run :=
  eX m 8 address data true.

(** What [ez] finds in [data[0]]: a string when it runs as a command, the
    tuple of the arguments when [eza] calls it. *)
Inductive pyseq : Type :=
| PyStr (s : string)
| PyTuple (items : list string).

(** Iterating over it: the characters of a string, each a string of
    length one, or the elements of a tuple. *)
Definition py_iter (d : pyseq) : list string :=
  match d with
  | PyStr s => map (fun c => String c EmptyString) (list_ascii_of_string s)
  | PyTuple items => items
  end.

(** [ez(address, *data)]. *)
Definition ez (m : Mem) (address : Arg) (data : list pyseq) : result run :=
  d0 ← py_index data 0;
  Ok (eX m 1 address (py_iter d0) false).

(** [eza(address, *data)], which hands its tuple to [ez] as one argument. *)
Definition eza (m : Mem) (address : Arg) (data : list string) : result run :=
  ez m address [PyTuple data].

End Windbg.
End windbg.

(** ** A byte-addressable memory

    Modelled from the spec: the Memory Access Port of section 6
    ([pwndbg.memory] is not part of the sources).  A memory maps the mapped
    addresses to their bytes.  A read of [w] bytes fails when one of them is
    unmapped and gives the unsigned little-endian integer otherwise; a write
    fails as a whole, changing nothing, when one target byte is unmapped.
    Pointers are 8 bytes wide. *)

Module bytemem.

Definition sizeof (t : ctype) : Z :=
  match t with
  | uint8 => 1
  | uint16 => 2
  | uint32 => 4
  | uint64 => 8
  | ppvoid => 8
  end.

Definition read_bytes (m : gmap Z byte) (address : Z) (w : Z)
  : option (list byte) :=
  mapM (fun k => m !! (address + k)) (windbg.range w).

Fixpoint le_value (bs : list byte) : Z :=
  match bs with
  | [] => 0
  | b :: bs' => Z.of_N (Byte.to_N b) + 256 * le_value bs'
  end.

Definition readInteger (m : gmap Z byte) (t : ctype) (address : Z)
  : option Z :=
  le_value <$> read_bytes m address (sizeof t).

Fixpoint store (m : gmap Z byte) (address : Z) (bs : list byte)
  : gmap Z byte :=
  match bs with
  | [] => m
  | b :: bs' => store (<[address := b]> m) (address + 1) bs'
  end.

Definition writeBytes (m : gmap Z byte) (address : Z) (bs : list byte)
  : option (gmap Z byte) :=
  match read_bytes m address (len bs) with
  | Some _ => Some (store m address bs)
  | None => None
  end.

#[global] Instance port : MemoryPort (gmap Z byte) := {|
  ptrsize := 8;
  poi := readInteger;
  write := writeBytes
|}.

(** [n] mapped zero bytes from [address] on. *)
Definition zeros (address : Z) (n : Z) : gmap Z byte :=
  store ∅ address (map (fun _ => x00) (windbg.range n)).

(** [n] mapped bytes from [address] on, holding 0, 1, 2, ... *)
Definition counting (address : Z) (n : Z) : gmap Z byte :=
  store ∅ address
    (map (fun k => byte_of_ascii (ascii_of_N (Z.to_N k))) (windbg.range n)).

(** 64 mapped bytes at 0x1000 whose first pointer, at 0x1000, is 0x1000. *)
Definition self_pointer : gmap Z byte :=
  store (zeros 4096 64) 4096 [x00; x10; x00; x00; x00; x00; x00; x00].

(** 64 mapped bytes at 0x1000 where each of the first six pointers holds
    the address of the next one. *)
Definition ladder : gmap Z byte :=
  store (zeros 4096 64) 4096
    [x08; x10; x00; x00; x00; x00; x00; x00;
     x10; x10; x00; x00; x00; x00; x00; x00;
     x18; x10; x00; x00; x00; x00; x00; x00;
     x20; x10; x00; x00; x00; x00; x00; x00;
     x28; x10; x00; x00; x00; x00; x00; x00;
     x30; x10; x00; x00; x00; x00; x00; x00].

End bytemem.

(** ** Stand-ins for the collaborators of [format], and test data *)

Module fixtures.

(** An [enhance] that tags the address, a symbol table without symbols,
    and a [color.get] that adds no colour. *)
Definition tag (a : Z) : string := String.append "@" (pct_x a).

Definition no_symbol (a : Z) : string := EmptyString.

Definition plain (a : Z) (symbol : option string) : string :=
  match symbol with
  | Some s => s
  | None => pct_hash_x a
  end.

(** The values 0, 1, ..., 49. *)
Definition first50 : list Z := map Z.of_nat (seq 0 50).

End fixtures.

(** ** What a byte memory owes its users

    The contract of byte-wise access a dump after a patch relies on: after
    a successful write, a one-byte read inside the written range gives the
    byte written there, and a one-byte read elsewhere is as before. *)

Definition byte_value (b : byte) : Z := Z.of_N (Byte.to_N b).

(** The byte a write of [bs] at [address] puts at [x], if any. *)
Definition written (address : Z) (bs : list byte) (x : Z) : option byte :=
  if address <=? x then nth_error bs (Z.to_nat (x - address)) else None.

Definition byte_port_law {Mem : Type} {port : MemoryPort Mem} : Prop :=
  forall (m m' : Mem) (address : Z) (bs : list byte) (x : Z),
    write m address bs = Some m' ->
    poi m' uint8 x
    = match written address bs x with
      | Some b => Some (byte_value b)
      | None => poi m uint8 x
      end.

(** ** Dereference paths

    Each element of [l] but the last holds the next one as its pointer. *)

Definition linked {Mem : Type} {port : MemoryPort Mem} (m : Mem)
    (l : list Z) : Prop :=
  forall (k : nat) (a b : Z),
    l !! k = Some a -> l !! S k = Some b -> poi m ppvoid a = Some b.

(** * Properties *)

(** ** Python primitives *)

Lemma len_app {A : Type} (l1 l2 : list A) : len (l1 ++ l2) = len l1 + len l2.
Proof. unfold len. rewrite length_app. lia. Qed.

Lemma py_count_app (l1 l2 : list Z) (x : Z) :
  py_count (l1 ++ l2) x = py_count l1 x + py_count l2 x.
Proof. unfold py_count. rewrite count_occ_app. lia. Qed.

Lemma py_count_single (a x : Z) :
  py_count [a] x = if Z.eq_dec a x then 1 else 0.
Proof. unfold py_count. simpl. destruct (Z.eq_dec a x); reflexivity. Qed.

Lemma py_count_nonneg (l : list Z) (x : Z) : 0 <= py_count l x.
Proof. unfold py_count. lia. Qed.

Lemma py_index_last {A : Type} (a : A) : py_index [a] (-1) = Ok a.
Proof. reflexivity. Qed.

Lemma py_index_second_to_last {A : Type} (pre : list A) (p q : A) :
  py_index (pre ++ [p; q]) (-2) = Ok p.
Proof.
  unfold py_index. rewrite len_app. unfold len. simpl length.
  change (-2 <? 0) with true. cbv iota.
  set (n := Z.of_nat (length pre)).
  replace (n + Z.of_nat 2 + -2) with n by lia.
  assert (E1 : (n <? 0) = false) by (apply Z.ltb_ge; lia).
  assert (E2 : (n + Z.of_nat 2 <=? n) = false) by (apply Z.leb_gt; lia).
  rewrite E1, E2. simpl orb. cbv iota.
  unfold n. rewrite Nat2Z.id, nth_error_app2 by lia.
  rewrite Nat.sub_diag. reflexivity.
Qed.

(** [l[:-1]] drops the last element. *)
Lemma py_slice_init {A : Type} (l : list A) :
  py_slice l 0 (-1) = removelast l.
Proof.
  unfold py_slice, py_clamp, len.
  change (0 <? 0) with false. change (-1 <? 0) with true. cbv iota.
  rewrite Z.min_l by lia. simpl skipn.
  rewrite removelast_firstn_len. f_equal. lia.
Qed.

(** A list of two or more elements ends in two elements. *)
Lemma two_last {A : Type} (l : list A) :
  (2 <= length l)%nat -> exists pre p q, l = pre ++ [p; q].
Proof.
  intros H.
  destruct (exists_last (l := l)) as (l1 & q & ->).
  { intros ->. simpl in H. lia. }
  rewrite length_app in H. simpl in H.
  destruct (exists_last (l := l1)) as (pre & p & ->).
  { intros ->. simpl in H. lia. }
  exists pre, p, q. rewrite <- app_assoc. reflexivity.
Qed.

(** ** Padding and hexadecimal decoding *)

Lemma length_replicate_append (n : nat) (c : ascii) (s : string) :
  String.length (String.append (replicate_char n c) s)
  = (n + String.length s)%nat.
Proof. induction n as [|n IH]; simpl; [reflexivity | rewrite IH; reflexivity]. Qed.

(** A shorter string is padded to the width exactly. *)
Lemma rjust_short (width : Z) (fill : ascii) (s : string) :
  Z.of_nat (String.length s) <= width ->
  Z.of_nat (String.length (rjust width fill s)) = width.
Proof. intros H. unfold rjust. rewrite length_replicate_append. lia. Qed.

(** A string of the width or longer is left as it is. *)
Lemma rjust_long (width : Z) (fill : ascii) (s : string) :
  width <= Z.of_nat (String.length s) -> rjust width fill s = s.
Proof.
  intros H. unfold rjust.
  replace (Z.to_nat (width - Z.of_nat (String.length s))) with 0%nat by lia.
  reflexivity.
Qed.

(** Decoding gives one byte for every two characters. *)
Lemma decode_hex_length (bs : list byte) : forall s : string,
  decode_hex s = Ok bs -> String.length s = (2 * length bs)%nat.
Proof.
  induction bs as [|b bs IH]; intros s H.
  - destruct s as [|a [|a' rest]]; simpl in H; [reflexivity | discriminate |].
    destruct (ascii_to_digit a); [|discriminate].
    destruct (ascii_to_digit a'); [|discriminate].
    destruct (decode_hex rest); discriminate.
  - destruct s as [|a [|a' rest]]; simpl in H; [discriminate | discriminate |].
    destruct (ascii_to_digit a); [|discriminate].
    destruct (ascii_to_digit a'); [|discriminate].
    destruct (decode_hex rest) as [bs'|] eqn:Hrest; [|discriminate].
    injection H as _ ->. simpl. rewrite (IH rest Hrest). lia.
Qed.

(** An even number of hexadecimal digits always decodes. *)
Lemma decode_hex_total (n : nat) : forall s : string,
  String.length s = (2 * n)%nat -> is_hex s = true ->
  exists bs : list byte, decode_hex s = Ok bs.
Proof.
  induction n as [|n IH]; intros s Hlen Hhex.
  - destruct s; [|discriminate]. exists []. reflexivity.
  - destruct s as [|a [|b rest]]; simpl in Hlen; try lia.
    simpl in Hhex. simpl.
    destruct (ascii_to_digit a) as [hi|]; [|discriminate].
    destruct (ascii_to_digit b) as [lo|]; [|discriminate].
    destruct (IH rest) as (bs & ->); [lia | exact Hhex |].
    exists (byte_of_nibbles hi lo :: bs). reflexivity.
Qed.

(** ** The pointer chain of [chain.get] *)

Module chain_facts.
Import chain.

Section Facts.
Context {Mem : Type} {port : MemoryPort Mem}.
Variable m : Mem.

(** The loop only ever appends, and at most one address per iteration. *)
Lemma get_loop_extends (n : nat) : forall (result : list Z) (address : Z),
  exists suffix : list Z,
    get_loop m n result address = result ++ suffix /\
    (length suffix <= n)%nat.
Proof.
  induction n as [|n IH]; intros result address; simpl.
  - exists []. rewrite app_nil_r. split; [reflexivity | simpl; lia].
  - destruct (2 <=? py_count result address).
    + exists []. rewrite app_nil_r. split; [reflexivity | simpl; lia].
    + destruct (poi m ppvoid address) as [v|].
      * destruct (IH (result ++ [address]) v) as (suffix & Heq & Hlen).
        exists (address :: suffix). rewrite Heq, <- app_assoc.
        split; [reflexivity | simpl; lia].
      * exists [address]. split; [reflexivity | simpl; lia].
Qed.

(** From an empty result the first iteration always appends. *)
Lemma get_loop_first (n : nat) (address : Z) :
  exists rest : list Z,
    get_loop m (S n) [] address = address :: rest /\ (length rest <= n)%nat.
Proof.
  simpl. destruct (poi m ppvoid address) as [v|].
  - destruct (get_loop_extends n [address] v) as (suffix & Heq & Hlen).
    exists suffix. rewrite Heq. split; [reflexivity | exact Hlen].
  - exists []. split; [reflexivity | simpl; lia].
Qed.

Lemma get_shape (A L : Z) : 1 <= L ->
  exists rest : list Z, get m A L = A :: rest /\ len rest <= L - 1.
Proof.
  intros HL. unfold get.
  destruct (Z.to_nat L) as [|n] eqn:En; [lia|].
  destruct (get_loop_first n A) as (rest & Heq & Hlen).
  exists rest. split; [exact Heq | unfold len; lia].
Qed.

(** The loop keeps every address at two occurrences or fewer. *)
Lemma get_loop_count (n : nat) : forall (result : list Z) (address : Z),
  (forall a, py_count result a <= 2) ->
  forall a, py_count (get_loop m n result address) a <= 2.
Proof.
  induction n as [|n IH]; intros result address Hinv a; simpl.
  - apply Hinv.
  - destruct (2 <=? py_count result address) eqn:Hstop; [apply Hinv|].
    apply Z.leb_gt in Hstop.
    assert (Hinv' : forall b, py_count (result ++ [address]) b <= 2).
    { intros b. rewrite py_count_app, py_count_single.
      destruct (Z.eq_dec address b) as [->|_]; [lia|].
      specialize (Hinv b). lia. }
    destruct (poi m ppvoid address) as [v|]; [apply IH|]; auto.
Qed.

(** An address seen twice stops the loop with the result unchanged. *)
Lemma get_loop_stop (n : nat) (result : list Z) (address : Z) :
  2 <= py_count result address -> get_loop m n result address = result.
Proof.
  intros H. destruct n as [|n]; simpl; [reflexivity|].
  apply Z.leb_le in H. rewrite H. reflexivity.
Qed.

(** A failing read stops the loop right after the address is appended. *)
Lemma get_loop_unreadable (n : nat) (result : list Z) (address : Z) :
  py_count result address < 2 -> poi m ppvoid address = None ->
  get_loop m (S n) result address = result ++ [address].
Proof.
  intros Hc Hp. simpl. apply Z.leb_gt in Hc. rewrite Hc, Hp. reflexivity.
Qed.

(** An element appended by the loop whose read fails is the last one. *)
Lemma get_loop_failure_last (n : nat) : forall (result : list Z) (address : Z)
    (k : nat) (a : Z),
  (length result <= k)%nat ->
  nth_error (get_loop m n result address) k = Some a ->
  poi m ppvoid a = None ->
  length (get_loop m n result address) = S k.
Proof.
  induction n as [|n IH]; intros result address k a Hk Hnth Hp; simpl in *.
  - assert (k < length result)%nat by (apply nth_error_Some; congruence).
    lia.
  - destruct (2 <=? py_count result address).
    + assert (k < length result)%nat by (apply nth_error_Some; congruence).
      lia.
    + destruct (poi m ppvoid address) as [v|] eqn:Hv.
      * destruct (Nat.eq_dec k (length result)) as [->|Hne].
        -- destruct (get_loop_extends n (result ++ [address]) v)
             as (suffix & Heq & _).
           rewrite Heq, <- app_assoc in Hnth.
           rewrite nth_error_app2 in Hnth by lia.
           rewrite Nat.sub_diag in Hnth. simpl in Hnth.
           congruence.
        -- apply (IH (result ++ [address]) v k a); auto.
           rewrite length_app. simpl. lia.
      * assert (k < length (result ++ [address]))%nat
          by (apply nth_error_Some; congruence).
        rewrite length_app in *. simpl in *. lia.
Qed.

(** C4: for every address [A] and limit [L >= 1], [get(A, L)] has between
    1 and [L] elements and its first element is [A]. *)
Theorem get_length_and_head (A L : Z) :
  1 <= L ->
  1 <= len (get m A L) <= L /\ head (get m A L) = Some A.
Proof.
  intros HL. destruct (get_shape A L HL) as (rest & -> & Hlen).
  unfold len in *. simpl. split; [lia | reflexivity].
Qed.

(** C5: when the pointer stored at [A] is [A] itself, [get(A, L)] is
    exactly [[A; A]] for every [L >= 2], however large [L] is. *)
Theorem get_self_pointer (A L : Z) :
  poi m ppvoid A = Some A -> 2 <= L -> get m A L = [A; A].
Proof.
  intros Hself HL. unfold get.
  destruct (Z.to_nat L) as [|[|n]] eqn:En; [lia | lia |].
  simpl. rewrite Hself. simpl.
  rewrite py_count_single. destruct (Z.eq_dec A A); [|congruence].
  simpl. rewrite Hself.
  apply (get_loop_stop n [A; A] A).
  change [A; A] with ([A] ++ [A]).
  rewrite py_count_app, py_count_single.
  destruct (Z.eq_dec A A); [lia | congruence].
Qed.

(** C6: no address occurs more than twice in a chain returned by [get],
    and the loop stops without appending as soon as the current address
    already occurs twice in the accumulated result. *)
Theorem get_at_most_twice (A L a : Z) :
  py_count (get m A L) a <= 2 /\
  (forall (n : nat) (result : list Z) (address : Z),
     2 <= py_count result address ->
     get_loop m n result address = result).
Proof.
  split.
  - unfold get. apply get_loop_count. intros b.
    unfold py_count. simpl. lia.
  - intros n result address. apply get_loop_stop.
Qed.

(** C7: an unreadable start address gives the chain [[A]] for every
    [L >= 1]; in general an element of the chain whose read fails is the
    last element of the chain, and [get] returns the chain as a plain list
    in every case. *)
Theorem get_read_failure (A L : Z) :
  (1 <= L -> poi m ppvoid A = None -> get m A L = [A]) /\
  (forall (k : nat) (a : Z),
     nth_error (get m A L) k = Some a -> poi m ppvoid a = None ->
     len (get m A L) = Z.of_nat k + 1).
Proof.
  split.
  - intros HL Hp. unfold get.
    destruct (Z.to_nat L) as [|n] eqn:En; [lia|].
    apply (get_loop_unreadable n [] A); [|exact Hp].
    unfold py_count. simpl. lia.
  - intros k a Hnth Hp. unfold len, get in *.
    rewrite (get_loop_failure_last (Z.to_nat L) [] A k a); auto; simpl; lia.
Qed.

Variable enhance : Z -> string.
Variable symbol_get : Z -> string.
Variable color_get : Z -> option string -> string.

(** C2: [format] distinguishes three cases on the chain of [get(value,
    LIMIT)], and they are all the cases there are.  A chain of length 1
    gives only the text of [enhance] at the start address.  A chain longer
    than 1 and shorter than [LIMIT] passes its second-to-last address to
    [enhance].  A chain of length [LIMIT] calls [enhance] on nothing and
    ends in the marker ["..."]. *)
Theorem format_cases (value : Z) :
  let chain := get m value LIMIT in
  let arrows :=
    join " --> " (map (format_link symbol_get color_get) (removelast chain)) in
  (len chain = 1 /\
   format m enhance symbol_get color_get value
   = ([value], Ok (enhance value)))
  \/
  (1 < len chain < LIMIT /\
   exists (pre : list Z) (p q : Z),
     chain = pre ++ [p; q] /\
     format m enhance symbol_get color_get value
     = ([p], Ok (String.append arrows
                   (String.append " <-- " (enhance p)))))
  \/
  (len chain = LIMIT /\
   format m enhance symbol_get color_get value
   = ([], Ok (String.append arrows (String.append " <-- " "...")))).
Proof.
  intros chain arrows.
  destruct (get_shape value LIMIT) as (rest & Hchain & Hrest);
    [unfold LIMIT; lia|].
  fold chain in Hchain.
  assert (Hlen : len chain = 1 + len rest).
  { rewrite Hchain. unfold len. simpl length. lia. }
  assert (0 <= len rest) by (unfold len; lia).
  unfold format. fold chain. unfold format_enhanced.
  destruct (Z.eqb_spec (len chain) 1) as [H1|H1].
  - left. split; [exact H1|].
    assert (rest = []) as ->.
    { destruct rest; [reflexivity|]. unfold len in *. simpl in *. lia. }
    rewrite Hchain, py_index_last. reflexivity.
  - right. destruct (Z.ltb_spec (len chain) LIMIT) as [H5|H5].
    + left. split; [lia|].
      destruct (two_last chain) as (pre & p & q & Hpq).
      { unfold len in *. lia. }
      exists pre, p, q. split; [exact Hpq|].
      rewrite Hpq at 1. rewrite py_index_second_to_last.
      unfold arrows. rewrite py_slice_init. reflexivity.
    + right. split; [lia|].
      unfold arrows. rewrite py_slice_init. reflexivity.
Qed.

End Facts.
End chain_facts.

(** ** Slices and rows *)

Lemma py_slice_nonneg {A : Type} (l : list A) (lo hi : Z) :
  0 <= lo <= hi ->
  py_slice l lo hi = firstn (Z.to_nat (hi - lo)) (skipn (Z.to_nat lo) l).
Proof.
  intros H. unfold py_slice, py_clamp, len.
  assert (E1 : (lo <? 0) = false) by (apply Z.ltb_ge; lia).
  assert (E2 : (hi <? 0) = false) by (apply Z.ltb_ge; lia).
  rewrite E1, E2.
  destruct (Z.le_gt_cases lo (Z.of_nat (length l))) as [Hlo|Hlo].
  - rewrite (Z.min_l lo) by lia.
    destruct (Z.le_gt_cases hi (Z.of_nat (length l))) as [Hhi|Hhi].
    + rewrite Z.min_l by lia. reflexivity.
    + rewrite Z.min_r by lia.
      rewrite !firstn_all2; [reflexivity | |]; rewrite length_skipn; lia.
  - rewrite !Z.min_r by lia. rewrite Z.sub_diag.
    change (Z.to_nat 0) with 0%nat. rewrite firstn_O.
    rewrite (skipn_all2 l) by lia. rewrite firstn_nil. reflexivity.
Qed.

Lemma firstn_add {A : Type} (n k : nat) : forall l : list A,
  firstn (n + k) l = firstn n l ++ firstn k (skipn n l).
Proof.
  induction n as [|n IH]; intros l; [reflexivity|].
  destruct l as [|x l]; simpl.
  - rewrite firstn_nil. reflexivity.
  - rewrite IH. reflexivity.
Qed.

(** Consecutive slices of width [r] put together give back a prefix. *)
Lemma concat_slices {A : Type} (l : list A) (r : Z) (n : nat) :
  0 < r ->
  concat (map (fun i => py_slice l (i * r) ((i + 1) * r))
            (map Z.of_nat (seq 0 n)))
  = firstn (n * Z.to_nat r) l.
Proof.
  intros Hr. induction n as [|n IH]; [reflexivity|].
  rewrite seq_S, !map_app, concat_app, IH. simpl.
  rewrite app_nil_r, py_slice_nonneg by nia.
  replace (Z.to_nat ((Z.of_nat n + 1) * r - Z.of_nat n * r))
    with (Z.to_nat r) by nia.
  replace (Z.to_nat (Z.of_nat n * r)) with (n * Z.to_nat r)%nat by nia.
  replace (Z.to_nat r + n * Z.to_nat r)%nat
    with (n * Z.to_nat r + Z.to_nat r)%nat by lia.
  rewrite firstn_add. reflexivity.
Qed.

(** ** The dump and patch commands *)

Module windbg_facts.
Import windbg.

Lemma get_type_sizes (size : Z) (type : ctype) :
  get_type size = Ok type -> size = 1 \/ size = 2 \/ size = 4 \/ size = 8.
Proof.
  unfold get_type. intros H.
  destruct (Z.eqb_spec size 1); [lia|].
  destruct (Z.eqb_spec size 2); [lia|].
  destruct (Z.eqb_spec size 4); [lia|].
  destruct (Z.eqb_spec size 8); [lia|].
  discriminate.
Qed.

Lemma length_range (n : Z) : length (range n) = Z.to_nat n.
Proof. unfold range. rewrite length_map, length_seq. reflexivity. Qed.

(** The rows hold every value read, in order, when the loop read no more
    than [count] of them. *)
(** The float conversion is exact below 2^53. *)
Lemma py_float_exact (x : Z) : Z.abs x < 2 ^ 53 -> py_float x = Ok x.
Proof.
  intros Hx. unfold py_float, round_to_double.
  assert (He : (Z.log2 (Z.abs x) + 1 <=? 53) = true).
  { apply Z.leb_le. destruct (Z.eq_dec (Z.abs x) 0) as [->|Hne].
    - simpl. lia.
    - assert (Z.log2 (Z.abs x) < 53) by (apply Z.log2_lt_pow2; lia). lia. }
  rewrite He.
  replace (Z.sgn x * Z.abs x) with x by lia.
  assert (Hlt : (Z.abs x <? 2 ^ 1024) = true).
  { apply Z.ltb_lt. apply Z.lt_trans with (2 ^ 53); [exact Hx | reflexivity]. }
  rewrite Hlt. reflexivity.
Qed.

(** Rounding moves an integer by less than itself. *)
Lemma round_to_double_bound (a : Z) :
  0 <= a -> 0 <= round_to_double a <= 2 * a.
Proof.
  intros Ha. unfold round_to_double.
  destruct (Z.leb_spec (Z.log2 a + 1) 53) as [|He]; [lia|].
  set (s := Z.log2 a + 1 - 53).
  assert (Hs : 0 < s) by (unfold s; lia).
  assert (Hpos : 0 < a).
  { destruct (Z.eq_dec a 0) as [->|]; [simpl in He; lia | lia]. }
  assert (Hp : 0 < 2 ^ s) by (apply Z.pow_pos_nonneg; lia).
  assert (Hle : 2 ^ s <= a).
  { apply Z.le_trans with (2 ^ Z.log2 a).
    - apply Z.pow_le_mono_r; unfold s; lia.
    - apply Z.log2_spec. exact Hpos. }
  pose proof (Z.mul_div_le a (2 ^ s) Hp) as Hq.
  assert (0 <= a / 2 ^ s) by (apply Z.div_pos; lia).
  destruct ((2 ^ (s - 1) <? a mod 2 ^ s)
            || (a mod 2 ^ s =? 2 ^ (s - 1)) && Z.odd (a / 2 ^ s)); nia.
Qed.

(** The conversion succeeds below 2^1023. *)
Lemma py_float_ok (x : Z) :
  Z.abs x < 2 ^ 1023 -> exists y : Z, py_float x = Ok y.
Proof.
  intros Hx. unfold py_float.
  pose proof (round_to_double_bound (Z.abs x) (Z.abs_nonneg x)) as Hr.
  assert (H2 : 2 ^ 1024 = 2 * 2 ^ 1023) by reflexivity.
  assert (Hlt : (Z.abs (Z.sgn x * round_to_double (Z.abs x)) <? 2 ^ 1024)
                = true).
  { apply Z.ltb_lt. rewrite Z.abs_mul.
    assert (Z.abs (Z.sgn x) <= 1) by lia.
    rewrite (Z.abs_eq (round_to_double (Z.abs x))) by lia. nia. }
  rewrite Hlt. eexists. reflexivity.
Qed.

(** It fails with [OverflowError] only. *)
Lemma py_float_raises (x : Z) (e : exn) :
  py_float x = Raise e -> e = OverflowError.
Proof.
  unfold py_float.
  destruct (Z.abs (Z.sgn x * round_to_double (Z.abs x)) <? 2 ^ 1024);
    congruence.
Qed.

Lemma n_rows_exact (count size : Z) :
  Z.abs (count * size) < 2 ^ 53 ->
  n_rows count size = Ok (ceil16 (count * size)).
Proof. intros H. unfold n_rows. rewrite (py_float_exact _ H). reflexivity. Qed.

Lemma n_rows_ok (count size : Z) :
  Z.abs (count * size) < 2 ^ 1023 -> exists n : Z, n_rows count size = Ok n.
Proof.
  intros H. unfold n_rows. destruct (py_float_ok _ H) as (y & ->).
  eexists. reflexivity.
Qed.

Lemma n_rows_raises (count size : Z) (e : exn) :
  n_rows count size = Raise e -> e = OverflowError.
Proof.
  unfold n_rows. destruct (py_float (count * size)) as [y|e'] eqn:Hy;
    simpl; [discriminate|].
  intros H. injection H as <-. exact (py_float_raises _ _ Hy).
Qed.

(** The exact number of rows is enough for [count] values. *)
Lemma ceil16_covers (size count : Z) (type : ctype) :
  get_type size = Ok type ->
  0 < 16 / size /\ count <= ceil16 (count * size) * (16 / size).
Proof.
  intros Ht. unfold ceil16.
  destruct (get_type_sizes size type Ht) as [-> | [-> | [-> | ->]]];
    [change (16 / 1) with 16 | change (16 / 2) with 8
    | change (16 / 4) with 4 | change (16 / 8) with 2];
    Z.div_mod_to_equations; lia.
Qed.

(** The rows hold every value read, in order, when they are enough. *)
Lemma dX_rows_concat (values : list Z) (size n : Z) (type : ctype) :
  get_type size = Ok type -> len values <= n * (16 / size) ->
  concat (dX_rows values size n) = values.
Proof.
  intros Ht Hlen. unfold dX_rows, range, len in *.
  destruct (ceil16_covers size 0 type Ht) as [Hr _].
  rewrite concat_slices by lia.
  apply firstn_all2. nia.
Qed.

Section Facts.
Context {Mem : Type} {port : MemoryPort Mem}.

(** The read loop returns the values of the reads up to the first failing
    one, or all of them. *)
Lemma dX_read_prefix (m : Mem) (type : ctype) (size address : Z) (n : nat) :
  forall (i : Z) (values vs : list Z),
  (length vs <= n)%nat ->
  (forall (j : nat) (v : Z), nth_error vs j = Some v ->
     poi m type (address + (i + Z.of_nat j) * size) = Some v) ->
  ((length vs < n)%nat ->
     poi m type (address + (i + Z.of_nat (length vs)) * size) = None) ->
  dX_read m type size address n i values = values ++ vs.
Proof.
  induction n as [|n IH]; intros i values vs Hlen Hok Hfail; simpl.
  - destruct vs; [rewrite app_nil_r; reflexivity | simpl in Hlen; lia].
  - destruct vs as [|v vs].
    + simpl in Hfail. rewrite Z.add_0_r in Hfail.
      rewrite Hfail by lia. rewrite app_nil_r. reflexivity.
    + pose proof (Hok 0%nat v eq_refl) as H0.
      simpl in H0. rewrite Z.add_0_r in H0. rewrite H0.
      rewrite (IH (i + 1) (values ++ [v]) vs).
      * rewrite <- app_assoc. reflexivity.
      * simpl in Hlen. lia.
      * intros j w Hj.
        replace (i + 1 + Z.of_nat j) with (i + Z.of_nat (S j)) by lia.
        apply Hok. exact Hj.
      * intros Hlt.
        replace (i + 1 + Z.of_nat (length vs))
          with (i + Z.of_nat (length (v :: vs))) by (simpl length; lia).
        apply Hfail. simpl. lia.
Qed.

(** [dX] when the size is accepted and the row count is computed. *)
Lemma dX_ok (m : Mem) (size address count : Z) (type : ctype) (n : Z) :
  get_type size = Ok type ->
  n_rows count size = Ok n ->
  dX m size address count
  = Ok (imap (dX_line size address)
          (dX_rows (dX_values m type size address count) size n)).
Proof. intros Ht Hn. unfold dX. rewrite Ht. simpl. rewrite Hn. reflexivity. Qed.

(** The lines of [dX] when the row count is [n]: one per row, each row of
    at most [16 / size] values, row [i] labelled with [address + i + 16]. *)
Lemma dX_shape (m : Mem) (size address count : Z) (type : ctype) (n : Z) :
  get_type size = Ok type ->
  n_rows count size = Ok n ->
  exists rows : list (list Z),
    dX m size address count
    = Ok (imap (fun i row =>
                  join " " (enhex ptrsize (address + Z.of_nat i + 16)
                            :: map (enhex size) row)) rows) /\
    length rows = Z.to_nat n /\
    Forall (fun row => len row <= 16 / size) rows.
Proof.
  intros Ht Hn.
  exists (dX_rows (dX_values m type size address count) size n).
  split; [unfold dX; rewrite Ht; simpl; rewrite Hn; reflexivity|]. split.
  - unfold dX_rows. rewrite length_map, length_range. reflexivity.
  - destruct (ceil16_covers size 0 type Ht) as [Hr _].
    unfold dX_rows. apply List.Forall_forall. intros row Hin.
    apply in_map_iff in Hin. destruct Hin as (i & <- & Hi).
    unfold range in Hi. apply in_map_iff in Hi. destruct Hi as (k & <- & _).
    rewrite py_slice_nonneg by nia. unfold len.
    rewrite length_firstn. nia.
Qed.

(** C8 (amended): the read loop of [dX] stops at the first failing read
    and keeps the values read before it: when the reads of the first
    [len vs] elements give [vs] and the next read fails, [values] is [vs].
    The row count of line 75 is computed when [count * size] is below
    2^1023; when it is computed, to [n], [dX] returns without raising the
    [n] lines that render [vs]: the label, then the values of the row
    through [enhex].  When [count * size] is below 2^53 the row count is
    the exact ceiling and the rows hold exactly [vs]. *)
Theorem dX_truncates (m : Mem) (size address count : Z) (type : ctype)
    (vs : list Z) :
  get_type size = Ok type ->
  len vs < count ->
  (forall (j : nat) (v : Z), nth_error vs j = Some v ->
     poi m type (address + Z.of_nat j * size) = Some v) ->
  poi m type (address + len vs * size) = None ->
  dX_values m type size address count = vs /\
  (Z.abs (count * size) < 2 ^ 1023 ->
     exists n : Z, n_rows count size = Ok n) /\
  (forall n : Z, n_rows count size = Ok n ->
     dX m size address count
     = Ok (imap (fun i row =>
                   join " " (enhex ptrsize (address + Z.of_nat i + 16)
                             :: map (enhex size) row))
             (dX_rows vs size n))) /\
  (Z.abs (count * size) < 2 ^ 53 ->
     n_rows count size = Ok (ceil16 (count * size)) /\
     concat (dX_rows vs size (ceil16 (count * size))) = vs).
Proof.
  intros Ht Hlen Hok Hfail.
  assert (Hv : dX_values m type size address count = vs).
  { unfold dX_values, len in *.
    rewrite (dX_read_prefix m type size address _ 0 [] vs);
      [reflexivity | lia | exact Hok | intros _; exact Hfail]. }
  split; [exact Hv|]. split; [apply n_rows_ok|]. split.
  - intros n Hn. unfold dX. rewrite Ht. simpl. rewrite Hn, Hv. reflexivity.
  - intros Hb. split; [apply n_rows_exact; exact Hb|].
    apply (dX_rows_concat vs size _ type Ht).
    destruct (ceil16_covers size count type Ht) as [_ Hc]. lia.
Qed.

Context {Arg : Type}.
Variable commands_fix : Arg -> Z.

(** A run on [pre ++ rest] is the run on [pre] followed, when that one
    ended well, by the run on [rest] from where it stopped. *)
Lemma eX_loop_app (size address : Z) (hex : bool) (rest : list string) :
  forall (pre : list string) (i : Z) (m : Mem) (log : list (Z * list byte)),
  eX_loop size address hex i (pre ++ rest) m log
  = let r := eX_loop size address hex i pre m log in
    match outcome r with
    | Ok _ => eX_loop size address hex (i + len pre) rest (final r) (attempts r)
    | Raise _ => r
    end.
Proof.
  induction pre as [|item pre IH]; intros i m log; simpl.
  - unfold len. simpl. rewrite Z.add_0_r. reflexivity.
  - destruct (eX_bytes size hex item) as [bytes|e]; [|reflexivity].
    destruct (write m (address + i * size) bytes) as [m'|]; [|reflexivity].
    rewrite IH. simpl. unfold len. simpl length.
    replace (i + 1 + Z.of_nat (length pre))
      with (i + Z.of_nat (S (length pre))) by lia.
    reflexivity.
Qed.

(** The writes a run attempts: one per item, in order, each at its own
    target with the bytes of its item; all of them when the run ends well. *)
Lemma eX_loop_attempts (size address : Z) (hex : bool) :
  forall (data : list string) (i : Z) (m : Mem) (log : list (Z * list byte)),
  exists suffix : list (Z * list byte),
    attempts (eX_loop size address hex i data m log) = log ++ suffix /\
    (forall (j : nat) (target : Z) (bytes : list byte),
       nth_error suffix j = Some (target, bytes) ->
       exists item : string,
         nth_error data j = Some item /\
         target = address + (i + Z.of_nat j) * size /\
         eX_bytes size hex item = Ok bytes) /\
    (outcome (eX_loop size address hex i data m log) = Ok tt ->
     length suffix = length data).
Proof.
  induction data as [|item data IH]; intros i m log; simpl.
  - exists []. rewrite app_nil_r. split; [reflexivity|]. split; [|reflexivity].
    intros [|j] ? ? H; discriminate.
  - destruct (eX_bytes size hex item) as [bytes|e] eqn:Hb.
    + destruct (write m (address + i * size) bytes) as [m'|].
      * destruct (IH (i + 1) m' (log ++ [(address + i * size, bytes)]))
          as (suffix & Heq & Hnth & Hall).
        exists ((address + i * size, bytes) :: suffix).
        rewrite Heq, <- app_assoc. split; [reflexivity|]. split.
        -- intros [|j] target bs H; simpl in H.
           ++ injection H as <- <-. exists item.
              rewrite Z.add_0_r. auto.
           ++ destruct (Hnth j target bs H) as (it & H1 & H2 & H3).
              exists it. split; [exact H1|]. split; [lia | exact H3].
        -- intros Hout. simpl. f_equal. apply Hall. exact Hout.
      * exists [(address + i * size, bytes)]. simpl.
        split; [reflexivity|]. split; [|discriminate].
        intros [|[|j]] target bs H; simpl in H; try discriminate.
        injection H as <- <-. exists item. rewrite Z.add_0_r. auto.
    + exists []. simpl. rewrite app_nil_r.
      split; [reflexivity|]. split; [|discriminate].
      intros [|j] ? ? H; discriminate.
Qed.

Lemma eX_attempts (m : Mem) (size : Z) (address : Arg)
    (data : list string) (hex : bool) :
  (forall (j : nat) (target : Z) (bytes : list byte),
     nth_error (attempts (eX commands_fix m size address data hex)) j
     = Some (target, bytes) ->
     exists item : string,
       nth_error data j = Some item /\
       target = commands_fix address + Z.of_nat j * size /\
       eX_bytes size hex item = Ok bytes) /\
  (outcome (eX commands_fix m size address data hex) = Ok tt ->
   length (attempts (eX commands_fix m size address data hex)) = length data).
Proof.
  unfold eX.
  destruct (eX_loop_attempts size (commands_fix address) hex data 0 m [])
    as (suffix & Heq & Hnth & Hall).
  rewrite Heq. simpl. split; [|exact Hall].
  intros j target bytes H. destruct (Hnth j target bytes H) as (it & ? & ? & ?).
  exists it. rewrite Z.add_0_l in *. auto.
Qed.


(** C9: when the items before index [i] were written and the write of
    item [i] fails, the run ends there with [gdb.MemoryError]: the memory
    is the one the first [i] writes left, the failing write is the last
    one attempted, and the items after [i] play no part. *)
Theorem eX_write_failure (m : Mem) (size : Z) (address : Arg)
    (pre post : list string) (item : string) (hex : bool)
    (m_i : Mem) (log_i : list (Z * list byte)) (bytes : list byte) :
  eX commands_fix m size address pre hex
  = {| final := m_i; attempts := log_i; outcome := Ok tt |} ->
  eX_bytes size hex item = Ok bytes ->
  write m_i (commands_fix address + len pre * size) bytes = None ->
  eX commands_fix m size address (pre ++ item :: post) hex
  = {| final := m_i;
       attempts := log_i ++ [(commands_fix address + len pre * size, bytes)];
       outcome := Raise MemoryError |} /\
  length log_i = length pre.
Proof.
  intros Hpre Hb Hw.
  destruct (eX_attempts m size address pre hex) as (_ & Hall).
  rewrite Hpre in Hall. simpl in Hall. split; [|apply Hall; reflexivity].
  unfold eX in *. rewrite eX_loop_app. cbv zeta. rewrite Hpre.
  cbn [outcome final attempts eX_loop]. rewrite Z.add_0_l, Hb, Hw.
  reflexivity.
Qed.

(** C10 (amended): with [hex] true, an item made of an even number of
    hexadecimal digits, more than [size * 2] of them, is neither padded nor
    cut nor refused: it decodes, and the write attempted for it carries all
    its bytes, more than [size] of them, so it reaches past the target of
    the next item. *)
Theorem eX_long_item (m : Mem) (size : Z) (address : Arg)
    (pre post : list string) (item : string) :
  0 <= size ->
  size * 2 < Z.of_nat (String.length item) ->
  is_hex item = true ->
  Nat.even (String.length item) = true ->
  outcome (eX commands_fix m size address pre true) = Ok tt ->
  let target := commands_fix address + len pre * size in
  let next := commands_fix address + (len pre + 1) * size in
  rjust (size * 2) "0" item = item /\
  exists bytes : list byte,
    decode_hex item = Ok bytes /\
    nth_error
      (attempts (eX commands_fix m size address (pre ++ item :: post) true))
      (length pre)
    = Some (target, bytes) /\
    size < len bytes /\
    target <= next < target + len bytes.
Proof.
  intros Hsize Hlong Hhex Heven Hpre target next.
  assert (Hpad : rjust (size * 2) "0" item = item) by (apply rjust_long; lia).
  split; [exact Hpad|].
  apply Nat.even_spec in Heven. destruct Heven as [n Hn].
  destruct (decode_hex_total n item Hn Hhex) as (bytes & Hdec).
  exists bytes. split; [exact Hdec|].
  assert (Hlen : size < len bytes).
  { apply decode_hex_length in Hdec. unfold len. lia. }
  split; [|split; [exact Hlen | unfold target, next; lia]].
  destruct (eX_attempts m size address pre true) as (_ & Hall).
  specialize (Hall Hpre).
  unfold eX in *. rewrite eX_loop_app. cbv zeta. rewrite Hpre.
  set (r := eX_loop size (commands_fix address) true 0 pre m []) in *.
  cbn [eX_loop]. unfold eX_bytes at 1. rewrite Hpad, Hdec, Z.add_0_l.
  fold target.
  destruct (write (final r) target bytes) as [m'|]; simpl.
  - destruct (eX_loop_attempts size (commands_fix address) true post
                (len pre + 1) m' (attempts r ++ [(target, bytes)]))
      as (suffix & -> & _).
    rewrite <- app_assoc, nth_error_app2 by lia.
    rewrite Hall, Nat.sub_diag. reflexivity.
  - rewrite nth_error_app2 by lia.
    rewrite Hall, Nat.sub_diag. reflexivity.
Qed.

End Facts.
End windbg_facts.

(** ** The properties on the byte-addressable memory *)

Module examples.
Import chain windbg bytemem fixtures.

Lemma get_length_and_head_at_self_pointer :
  1 <= 5 /\
  1 <= len (get self_pointer 4096 5) <= 5 /\
  head (get self_pointer 4096 5) = Some 4096.
Proof.
  split; [lia|]. apply (chain_facts.get_length_and_head self_pointer 4096 5).
  lia.
Defined.

Lemma get_self_pointer_at_0x1000 :
  poi self_pointer ppvoid 4096 = Some 4096 /\
  get self_pointer 4096 5 = [4096; 4096].
Proof.
  split; [vm_compute; reflexivity|].
  apply (chain_facts.get_self_pointer self_pointer 4096 5);
    [vm_compute; reflexivity | lia].
Defined.

Lemma get_at_most_twice_at_self_pointer :
  py_count (get self_pointer 4096 5) 4096 <= 2 /\
  get_loop self_pointer 3 [4096; 4096] 4096 = [4096; 4096].
Proof.
  destruct (chain_facts.get_at_most_twice self_pointer 4096 5 4096)
    as [Hcount Hstop].
  split; [exact Hcount|]. apply Hstop. vm_compute. discriminate.
Defined.

Lemma get_read_failure_at_unmapped :
  poi self_pointer ppvoid 0 = None /\
  get self_pointer 0 5 = [0] /\
  len (get self_pointer 4104 5) = 2.
Proof.
  split; [vm_compute; reflexivity|]. split.
  - apply (proj1 (chain_facts.get_read_failure self_pointer 0 5));
      [lia | vm_compute; reflexivity].
  - apply (proj2 (chain_facts.get_read_failure self_pointer 4104 5) 1%nat 0);
      vm_compute; reflexivity.
Defined.

(** The three cases of [format]. *)
Example format_single :
  format self_pointer tag no_symbol plain 0 = ([0], Ok "@0"%string).
Proof. vm_compute. reflexivity. Qed.

Example format_short :
  format self_pointer tag no_symbol plain 4104
  = ([4104], Ok "0x1008 <-- @1008"%string).
Proof. vm_compute. reflexivity. Qed.

Example format_truncated :
  format ladder tag no_symbol plain 4096
  = ([], Ok "0x1000 --> 0x1008 --> 0x1010 --> 0x1018 <-- ..."%string).
Proof. vm_compute. reflexivity. Qed.

(** C1: [dX(1, 0x1000, 32)] over 32 mapped bytes gives two rows of 16
    values, each value as two hexadecimal digits, but labels them 0x1010 and
    0x1011: the label of row [i] is [address + i + 16], where the rows start
    at 0x1000 and 0x1010. *)
Theorem dX_row_labels :
  dX (counting 4096 32) 1 4096 32
  = Ok ["0000000000001010 00 01 02 03 04 05 06 07 08 09 0a 0b 0c 0d 0e 0f";
        "0000000000001011 10 11 12 13 14 15 16 17 18 19 1a 1b 1c 1d 1e 1f"]%string
  /\ enhex ptrsize (4096 + 16 * 0) = "0000000000001000"%string
  /\ enhex ptrsize (4096 + 16 * 1) = "0000000000001010"%string.
Proof. vm_compute. repeat split. Qed.

Lemma dX_truncates_at_50_of_100 :
  dX_values (counting 4096 50) uint8 1 4096 100 = first50 /\
  dX (counting 4096 50) 1 4096 100
  = Ok ["0000000000001010 00 01 02 03 04 05 06 07 08 09 0a 0b 0c 0d 0e 0f";
        "0000000000001011 10 11 12 13 14 15 16 17 18 19 1a 1b 1c 1d 1e 1f";
        "0000000000001012 20 21 22 23 24 25 26 27 28 29 2a 2b 2c 2d 2e 2f";
        "0000000000001013 30 31"; "0000000000001014";
        "0000000000001015"; "0000000000001016"]%string /\
  concat (dX_rows first50 1 7) = first50.
Proof.
  destruct (windbg_facts.dX_truncates (counting 4096 50) 1 4096 100 uint8
              first50) as (Hv & _ & Hlines & Hexact).
  - reflexivity.
  - vm_compute. reflexivity.
  - intros j v H.
    do 50 (destruct j as [|j];
           [simpl in H; injection H as <-; vm_compute; reflexivity|]).
    simpl in H. destruct j; discriminate.
  - vm_compute. reflexivity.
  - split; [exact Hv|]. split.
    + rewrite (Hlines 7 eq_refl). vm_compute. reflexivity.
    + destruct Hexact as [_ Hc]; [vm_compute; reflexivity | exact Hc].
Defined.

(** C8: a count too large for the float division of line 75 makes [dX]
    raise [OverflowError] after the read loop, here with the first read
    failing. *)
Lemma dX_overflow_at_huge_count :
  dX (∅ : gmap Z byte) 1 4096 (10 ^ 400) = Raise OverflowError.
Proof.
  assert (Hn : n_rows (10 ^ 400) 1 = Raise OverflowError)
    by (vm_compute; reflexivity).
  unfold dX. change (get_type 1) with (Ok uint8).
  cbn [mbind result_bind]. rewrite Hn. reflexivity.
Qed.



Lemma eX_write_failure_at_third_item :
  eX (fun a : Z => a) (zeros 4152 8) 4 4152
    (["11223344"%string; "aabbccdd"%string]
     ++ "55667788"%string :: ["01"%string]) true
  = {| final := store (zeros 4152 8) 4152
                  [x11; x22; x33; x44; xaa; xbb; xcc; xdd];
       attempts := [(4152, [x11; x22; x33; x44]); (4156, [xaa; xbb; xcc; xdd])]
                   ++ [(4152 + len ["11223344"; "aabbccdd"]%string * 4,
                        [x55; x66; x77; x88])];
       outcome := Raise MemoryError |} /\
  length [(4152, [x11; x22; x33; x44]); (4156, [xaa; xbb; xcc; xdd])]
  = length ["11223344"; "aabbccdd"]%string.
Proof.
  apply (windbg_facts.eX_write_failure (fun a : Z => a) (zeros 4152 8) 4 4152
           ["11223344"; "aabbccdd"]%string ["01"%string] "55667788" true);
    vm_compute; reflexivity.
Defined.

(** C10: an item of odd length longer than [size * 2] is rejected by the
    decoding and nothing is written for it. *)
Lemma eX_long_odd_item_rejected :
  outcome (eX (fun a : Z => a) (zeros 4096 16) 1 4096 ["123"%string] true)
  = Raise BinasciiError /\
  attempts (eX (fun a : Z => a) (zeros 4096 16) 1 4096 ["123"%string] true)
  = [] /\
  final (eX (fun a : Z => a) (zeros 4096 16) 1 4096 ["123"%string] true)
  = zeros 4096 16.
Proof. vm_compute. repeat split. Qed.

Lemma eX_long_item_of_six_digits :
  rjust (1 * 2) "0" "123456" = "123456"%string /\
  exists bytes : list byte,
    decode_hex "123456" = Ok bytes /\
    nth_error
      (attempts (eX (fun a : Z => a) (zeros 4096 16) 1 4096
                   ([] ++ "123456"%string :: ["aa"%string]) true))
      (length (@nil string))
    = Some (4096 + len (@nil string) * 1, bytes) /\
    1 < len bytes /\
    4096 + len (@nil string) * 1 <= 4096 + (len (@nil string) + 1) * 1
      < 4096 + len (@nil string) * 1 + len bytes.
Proof.
  apply (windbg_facts.eX_long_item (fun a : Z => a) (zeros 4096 16) 1 4096
           [] ["aa"%string] "123456");
    [lia | vm_compute; reflexivity | reflexivity | reflexivity | reflexivity].
Defined.

End examples.

(** ** More on the pointer chain *)

Module chain_props.
Import chain.

Section Props.
Context {Mem : Type} {port : MemoryPort Mem}.
Variable m : Mem.

Lemma linked_snoc (l : list Z) (a : Z) :
  linked m l ->
  (forall x, last l = Some x -> poi m ppvoid x = Some a) ->
  linked m (l ++ [a]).
Proof.
  intros Hl Hlast k x y Hx Hy.
  destruct (Nat.lt_ge_cases (S k) (length l)) as [Hk|Hk].
  - rewrite lookup_app_l in Hx by lia. rewrite lookup_app_l in Hy by lia.
    eapply Hl; eauto.
  - rewrite lookup_app_r in Hy by lia.
    assert (S k = length l) as Hk'.
    { apply lookup_lt_Some in Hy. simpl in Hy. lia. }
    rewrite Hk', Nat.sub_diag in Hy. simpl in Hy. injection Hy as <-.
    rewrite lookup_app_l in Hx by lia.
    apply Hlast. rewrite last_lookup.
    replace (pred (length l)) with k by lia. exact Hx.
Qed.

Lemma get_loop_linked (n : nat) : forall (result : list Z) (address : Z),
  linked m result ->
  (forall x, last result = Some x -> poi m ppvoid x = Some address) ->
  linked m (get_loop m n result address).
Proof.
  induction n as [|n IH]; intros result address Hl Hlast; simpl; [exact Hl|].
  destruct (2 <=? py_count result address); [exact Hl|].
  pose proof (linked_snoc result address Hl Hlast) as Hl'.
  destruct (poi m ppvoid address) as [v|] eqn:Hv; [|exact Hl'].
  apply IH; [exact Hl'|].
  intros x Hx. rewrite last_snoc in Hx. injection Hx as <-. exact Hv.
Qed.

(** X1: the chain is a dereference path: the pointer read at each element
    but the last is the next element. *)
Theorem get_links (A L : Z) (k : nat) (a b : Z) :
  get m A L !! k = Some a -> get m A L !! S k = Some b ->
  poi m ppvoid a = Some b.
Proof.
  apply (get_loop_linked (Z.to_nat L) [] A).
  - intros i x y Hx. discriminate.
  - intros x Hx. discriminate.
Qed.

(** Why a run of the loop that did not use all its iterations stopped. *)
Lemma get_loop_early (n : nat) : forall (result : list Z) (address : Z),
  (length (get_loop m n result address) < length result + n)%nat ->
  (get_loop m n result address = result /\ 2 <= py_count result address) \/
  exists (pre : list Z) (x : Z),
    get_loop m n result address = pre ++ [x] /\
    (length result < length (get_loop m n result address))%nat /\
    (poi m ppvoid x = None \/
     exists v, poi m ppvoid x = Some v /\
               2 <= py_count (get_loop m n result address) v).
Proof.
  induction n as [|n IH]; intros result address Hlen; simpl in *; [lia|].
  destruct (2 <=? py_count result address) eqn:Hc.
  - left. split; [reflexivity | apply Z.leb_le; exact Hc].
  - right. destruct (poi m ppvoid address) as [v|] eqn:Hv.
    + destruct (IH (result ++ [address]) v) as [[Heq Hcount]|Hright].
      * rewrite length_app. simpl. lia.
      * exists result, address. rewrite Heq, length_app. simpl.
        split; [reflexivity|]. split; [lia|].
        right. exists v. split; [exact Hv | exact Hcount].
      * destruct Hright as (pre & x & Heq & Hlt & Hwhy).
        exists pre, x. split; [exact Heq|]. split; [|exact Hwhy].
        rewrite length_app in Hlt. simpl in Hlt. lia.
    + exists result, address. rewrite length_app. simpl.
      split; [reflexivity|]. split; [lia|]. left. exact Hv.
Qed.

(** X2: a chain shorter than the limit ended for one of two reasons: the
    read at its last element failed, or the pointer read there already
    occurs twice in the chain. *)
Theorem get_stops_early (A L : Z) :
  len (get m A L) < L ->
  exists (pre : list Z) (x : Z),
    get m A L = pre ++ [x] /\
    (poi m ppvoid x = None \/
     exists v, poi m ppvoid x = Some v /\ 2 <= py_count (get m A L) v).
Proof.
  intros Hlen. unfold get, len in *.
  destruct (get_loop_early (Z.to_nat L) [] A) as [[_ Hc]|Hr].
  - simpl. lia.
  - unfold py_count in Hc. simpl in Hc. lia.
  - destruct Hr as (pre & x & Heq & _ & Hwhy). exists pre, x. auto.
Qed.

(** One more iteration appends at most one address. *)
Lemma get_loop_step (n : nat) : forall (result : list Z) (address : Z),
  exists suffix : list Z,
    get_loop m (S n) result address = get_loop m n result address ++ suffix.
Proof.
  induction n as [|n IH]; intros result address.
  - simpl. destruct (2 <=? py_count result address).
    + exists []. rewrite app_nil_r. reflexivity.
    + destruct (poi m ppvoid address); exists [address]; reflexivity.
  - change (get_loop m (S (S n)) result address)
      with (if 2 <=? py_count result address then result
            else match poi m ppvoid address with
                 | Some v => get_loop m (S n) (result ++ [address]) v
                 | None => result ++ [address]
                 end).
    change (get_loop m (S n) result address)
      with (if 2 <=? py_count result address then result
            else match poi m ppvoid address with
                 | Some v => get_loop m n (result ++ [address]) v
                 | None => result ++ [address]
                 end).
    destruct (2 <=? py_count result address).
    + exists []. rewrite app_nil_r. reflexivity.
    + destruct (poi m ppvoid address) as [v|].
      * apply IH.
      * exists []. rewrite app_nil_r. reflexivity.
Qed.

Lemma get_loop_more (k n : nat) (result : list Z) (address : Z) :
  exists suffix : list Z,
    get_loop m (n + k) result address = get_loop m n result address ++ suffix.
Proof.
  induction k as [|k IH].
  - exists []. rewrite Nat.add_0_r, app_nil_r. reflexivity.
  - destruct IH as (s1 & H1).
    destruct (get_loop_step (n + k) result address) as (s2 & H2).
    exists (s1 ++ s2). rewrite Nat.add_succ_r, H2, H1, app_assoc.
    reflexivity.
Qed.

(** X3: a larger limit only extends the chain: the chain for [L] is a
    prefix of the chain for every [L' >= L]. *)
Theorem get_limit_monotone (A L L' : Z) :
  L <= L' -> exists suffix : list Z, get m A L' = get m A L ++ suffix.
Proof.
  intros H. unfold get.
  replace (Z.to_nat L') with (Z.to_nat L + (Z.to_nat L' - Z.to_nat L))%nat
    by lia.
  apply get_loop_more.
Qed.

(** X4: the chain is empty exactly when the limit is zero or less; then it
    does not even hold the start address. *)
Theorem get_empty_iff (A L : Z) : get m A L = [] <-> L <= 0.
Proof.
  split.
  - intros H. destruct (Z.le_gt_cases L 0) as [|HL]; [assumption|].
    destruct (chain_facts.get_shape m A L) as (rest & Heq & _); [lia|].
    congruence.
  - intros H. unfold get. replace (Z.to_nat L) with 0%nat by lia.
    reflexivity.
Qed.

End Props.
End chain_props.

(** ** Hexadecimal text *)

Lemma lookup_map {A B : Type} (f : A -> B) (l : list A) (i : nat) :
  map f l !! i = f <$> l !! i.
Proof.
  revert i. induction l as [|x l IH]; intros [|i]; simpl; auto.
Qed.

(** A positive number below [16 ^ k] is written with at most [k] digits. *)
Lemma of_pos_length (k : nat) : forall (p : positive) (rest : string),
  Z.pos p < 16 ^ Z.of_nat k ->
  (String.length (HexString.Raw.of_pos p rest) <= String.length rest + k)%nat.
Proof.
  induction k as [|k IH]; intros p rest Hp.
  - simpl in Hp. lia.
  - rewrite Nat2Z.inj_succ, Z.pow_succ_r in Hp by lia.
    do 4 (try destruct p as [p|p|]); simpl; try lia;
      (etransitivity; [apply IH; lia | simpl; lia]).
Qed.

Lemma pct_x_length (k : nat) (n : Z) :
  0 <= n < 16 ^ Z.of_nat k -> (0 < k)%nat ->
  (String.length (pct_x n) <= k)%nat.
Proof.
  intros Hn Hk. destruct n as [|p|p]; simpl; [lia | | lia].
  apply (of_pos_length k p EmptyString). lia.
Qed.

(** Reading a padded string back as hexadecimal skips the padding. *)
Lemma to_N_replicate_zero (n : nat) (s : string) :
  HexString.Raw.to_N (String.append (replicate_char n "0") s) 0
  = HexString.Raw.to_N s 0.
Proof. induction n as [|n IH]; simpl; [reflexivity | exact IH]. Qed.

Lemma to_N_pct_x (n : Z) :
  0 <= n -> HexString.Raw.to_N (pct_x n) 0 = Z.to_N n.
Proof.
  intros Hn. destruct n as [|p|p]; simpl; [reflexivity | | lia].
  rewrite HexString.Raw.to_N_of_pos. reflexivity.
Qed.

Lemma is_hex_replicate_zero (n : nat) (s : string) :
  is_hex (String.append (replicate_char n "0") s) = is_hex s.
Proof. induction n as [|n IH]; simpl; [reflexivity | exact IH]. Qed.

Lemma decode_hex_is_hex (bs : list byte) : forall s : string,
  decode_hex s = Ok bs -> is_hex s = true.
Proof.
  induction bs as [|b bs IH]; intros s H.
  - destruct s as [|a [|a' rest]]; simpl in H; [reflexivity | discriminate |].
    destruct (ascii_to_digit a); [|discriminate].
    destruct (ascii_to_digit a'); [|discriminate].
    destruct (decode_hex rest); discriminate.
  - destruct s as [|a [|a' rest]]; simpl in H; [discriminate | discriminate |].
    simpl. destruct (ascii_to_digit a); [|discriminate].
    destruct (ascii_to_digit a'); [|discriminate].
    destruct (decode_hex rest) as [bs'|] eqn:Hrest; [|discriminate].
    injection H as _ ->. apply IH. exact Hrest.
Qed.

Lemma decode_hex_raises (n : nat) : forall (s : string) (e : exn),
  (String.length s <= n)%nat -> decode_hex s = Raise e -> e = BinasciiError.
Proof.
  induction n as [|n IH]; intros s e Hlen H.
  - destruct s; simpl in *; [discriminate | lia].
  - destruct s as [|a [|a' rest]]; simpl in H; [discriminate | congruence |].
    destruct (ascii_to_digit a); [|congruence].
    destruct (ascii_to_digit a'); [|congruence].
    destruct (decode_hex rest) as [bs'|e'] eqn:Hrest; [discriminate|].
    injection H as <-. apply (IH rest e'); [simpl in Hlen; lia | exact Hrest].
Qed.

(** ** More on the dump *)

Module dump_props.
Import windbg.

Lemma lookup_range (n : Z) (i : nat) (x : Z) :
  range n !! i = Some x -> x = Z.of_nat i /\ (i < Z.to_nat n)%nat.
Proof.
  unfold range. rewrite lookup_map. intros H.
  destruct (seq 0 (Z.to_nat n) !! i) as [k|] eqn:Hk; [|discriminate].
  apply lookup_seq in Hk. simpl in H. injection H as <-. lia.
Qed.

(** The number of values in row [i], whatever the number of rows. *)
Lemma dX_row_length (values : list Z) (size n : Z) (type : ctype)
    (i : nat) (row : list Z) :
  get_type size = Ok type ->
  dX_rows values size n !! i = Some row ->
  len row
  = Z.max 0 (Z.min (16 / size) (len values - Z.of_nat i * (16 / size))).
Proof.
  intros Ht Hrow.
  destruct (windbg_facts.ceil16_covers size 0 type Ht) as [Hr _].
  unfold dX_rows in Hrow. rewrite lookup_map in Hrow.
  destruct (range n !! i) as [x|] eqn:Hx; [|discriminate].
  apply lookup_range in Hx. destruct Hx as [-> _].
  simpl in Hrow. injection Hrow as <-.
  set (r := 16 / size) in *. set (q := Z.of_nat i * r).
  assert (0 <= q) by (unfold q; nia).
  replace ((Z.of_nat i + 1) * r) with (q + r) by (unfold q; ring).
  rewrite py_slice_nonneg by lia. unfold len.
  rewrite length_firstn, length_skipn. lia.
Qed.

Lemma ceil16_nonpos (count size : Z) :
  0 < size -> (ceil16 (count * size) <= 0 <-> count <= 0).
Proof.
  intros Hs. unfold ceil16. split; intros H.
  - assert (0 <= - (count * size) / 16) by lia.
    assert (0 <= - (count * size)).
    { destruct (Z.le_gt_cases 0 (- (count * size))) as [|Hneg]; [assumption|].
      pose proof (Z.div_lt_upper_bound (- (count * size)) 16 0). lia. }
    nia.
  - assert (0 <= - (count * size)) by nia.
    pose proof (Z.div_pos (- (count * size)) 16). lia.
Qed.

Section Props.
Context {Mem : Type} {port : MemoryPort Mem}.

(** X5: [dX] raises [KeyError] exactly for the element sizes other than
    1, 2, 4 and 8. *)
Theorem dX_bad_size (m : Mem) (size address count : Z) :
  dX m size address count = Raise KeyError
  <-> (size <> 1 /\ size <> 2 /\ size <> 4 /\ size <> 8).
Proof.
  split.
  - intros H. unfold dX in H.
    destruct (get_type size) as [type|e] eqn:Ht.
    + simpl in H.
      destruct (n_rows count size) as [n|e] eqn:Hn; simpl in H;
        [discriminate|].
      apply windbg_facts.n_rows_raises in Hn. congruence.
    + unfold get_type in Ht.
      destruct (Z.eqb_spec size 1); [discriminate|].
      destruct (Z.eqb_spec size 2); [discriminate|].
      destruct (Z.eqb_spec size 4); [discriminate|].
      destruct (Z.eqb_spec size 8); [discriminate|]. lia.
  - intros (H1 & H2 & H4 & H8). unfold dX, get_type.
    destruct (Z.eqb_spec size 1); [lia|].
    destruct (Z.eqb_spec size 2); [lia|].
    destruct (Z.eqb_spec size 4); [lia|].
    destruct (Z.eqb_spec size 8); [lia|]. reflexivity.
Qed.

Lemma dX_lines_count (m : Mem) (size address count : Z) (type : ctype) :
  get_type size = Ok type ->
  Z.abs (count * size) < 2 ^ 53 ->
  exists lines : list string,
    dX m size address count = Ok lines /\
    length lines = Z.to_nat (ceil16 (count * size)).
Proof.
  intros Ht Hb.
  destruct (windbg_facts.dX_shape m size address count type _ Ht
              (windbg_facts.n_rows_exact count size Hb))
    as (rows & Heq & Hlen & _).
  eexists. split; [exact Heq|]. rewrite length_imap. exact Hlen.
Qed.


(** X7: a value that fits in [size] bytes is rendered by [enhex] with
    exactly [size * 2] characters. *)
Theorem enhex_length (size value : Z) :
  0 < size -> Z.abs value < 256 ^ size ->
  Z.of_nat (String.length (enhex size value)) = size * 2.
Proof.
  intros Hs Hv. unfold enhex. apply rjust_short.
  assert (Hk : (String.length (pct_x (Z.abs value)) <= Z.to_nat (size * 2))%nat).
  { apply pct_x_length; [|lia]. split; [lia|].
    rewrite Z2Nat.id by lia.
    replace (16 ^ (size * 2)) with (256 ^ size); [exact Hv|].
    rewrite Z.mul_comm, Z.pow_mul_r by lia. reflexivity. }
  lia.
Qed.

(** X8: read back as a hexadecimal number, the text of [enhex] is the
    absolute value of the number: padding adds nothing, the sign is lost,
    and a value and its opposite are rendered alike. *)
Theorem enhex_reads_back (size value : Z) :
  HexString.Raw.to_N (enhex size value) 0 = Z.to_N (Z.abs value) /\
  enhex size (- value) = enhex size value.
Proof.
  unfold enhex. split.
  - unfold rjust. rewrite to_N_replicate_zero. apply to_N_pct_x. lia.
  - rewrite Z.abs_opp. reflexivity.
Qed.

(** X9: row [i] of a dump holds [16 / size] values while the values read
    last, then what is left of them, then none. *)
Theorem dX_row_size (values : list Z) (size n : Z) (type : ctype)
    (i : nat) (row : list Z) :
  get_type size = Ok type ->
  dX_rows values size n !! i = Some row ->
  len row
  = Z.max 0 (Z.min (16 / size) (len values - Z.of_nat i * (16 / size))).
Proof. apply dX_row_length. Qed.

(** X10: a line of the dump whose row starts at or after the first value
    that could not be read is the label alone. *)
Theorem dX_bare_label (m : Mem) (size address count : Z) (type : ctype)
    (lines : list string) (i : nat) (line : string) :
  get_type size = Ok type ->
  dX m size address count = Ok lines ->
  lines !! i = Some line ->
  len (dX_values m type size address count) <= Z.of_nat i * (16 / size) ->
  line = enhex ptrsize (address + Z.of_nat i + 16).
Proof.
  intros Ht Hdx Hline Hlen. unfold dX in Hdx. rewrite Ht in Hdx.
  simpl in Hdx.
  destruct (n_rows count size) as [n|e]; simpl in Hdx; [|discriminate].
  injection Hdx as <-.
  rewrite list_lookup_imap in Hline.
  destruct (dX_rows (dX_values m type size address count) size n !! i)
    as [row|] eqn:Hrow; [|discriminate].
  simpl in Hline. injection Hline as <-.
  pose proof (dX_row_length _ _ _ _ _ _ Ht Hrow) as Hr.
  assert (row = []) as ->.
  { destruct row; [reflexivity|]. unfold len in *. simpl length in Hr.
    set (r := 16 / size) in *. lia. }
  reflexivity.
Qed.

(** X11: for an element size it accepts and a count whose byte span is
    below 2^53 in magnitude, [dX] returns no line at all exactly when the
    count is zero or less. *)
Theorem dX_no_lines (m : Mem) (size address count : Z) (type : ctype) :
  get_type size = Ok type ->
  Z.abs (count * size) < 2 ^ 53 ->
  (dX m size address count = Ok [] <-> count <= 0).
Proof.
  intros Ht Hb.
  destruct (dX_lines_count m size address count type Ht Hb)
    as (lines & Heq & Hl).
  assert (Hs : 0 < size).
  { destruct (windbg_facts.get_type_sizes size type Ht)
      as [-> | [-> | [-> | ->]]]; lia. }
  pose proof (ceil16_nonpos count size Hs) as Hc.
  rewrite Heq. split.
  - intros H. injection H as ->. simpl in Hl. lia.
  - intros H. destruct lines; [reflexivity|]. simpl in Hl. lia.
Qed.

End Props.
End dump_props.

(** ** More on the patch *)

Module patch_props.
Import windbg.

Lemma lookup_nth_error {A : Type} (l : list A) (i : nat) :
  l !! i = nth_error l i.
Proof. revert i. induction l as [|x l IH]; intros [|i]; simpl; auto. Qed.

Lemma length_list_ascii (s : string) :
  length (list_ascii_of_string s) = String.length s.
Proof. induction s as [|c s IH]; simpl; [reflexivity | rewrite IH; reflexivity]. Qed.

Lemma written_cons (address : Z) (b : byte) (bs : list byte) (x : Z) :
  written address (b :: bs) x
  = if x =? address then Some b else written (address + 1) bs x.
Proof.
  unfold written.
  destruct (Z.eqb_spec x address) as [->|Hne].
  - rewrite Z.leb_refl, Z.sub_diag. reflexivity.
  - destruct (Z.leb_spec address x) as [Hle|Hlt].
    + destruct (Z.leb_spec (address + 1) x); [|lia].
      replace (Z.to_nat (x - address))
        with (S (Z.to_nat (x - (address + 1)))) by lia.
      reflexivity.
    + destruct (Z.leb_spec (address + 1) x); [lia | reflexivity].
Qed.

Lemma written_nil (address x : Z) : written address [] x = None.
Proof.
  unfold written. destruct (address <=? x); [|reflexivity].
  destruct (Z.to_nat (x - address)); reflexivity.
Qed.

Lemma written_before (address : Z) (bs : list byte) (x : Z) :
  x < address -> written address bs x = None.
Proof.
  intros H. unfold written. destruct (Z.leb_spec address x); [lia|].
  reflexivity.
Qed.

Lemma written_at (address : Z) (bs : list byte) (j : nat) :
  written address bs (address + Z.of_nat j) = nth_error bs j.
Proof.
  unfold written. destruct (Z.leb_spec address (address + Z.of_nat j)); [|lia].
  f_equal. lia.
Qed.

Section Props.
Context {Mem : Type} {port : MemoryPort Mem}.
Context {Arg : Type}.
Variable commands_fix : Arg -> Z.

(** Two runs over the same items whose targets coincide do the same. *)
Lemma eX_loop_shift (size A A' : Z) (hex : bool) :
  forall (data : list string) (i i' : Z) (m : Mem)
         (log log' : list (Z * list byte)),
  A + i * size = A' + i' * size ->
  exists s : list (Z * list byte),
    attempts (eX_loop size A hex i data m log) = log ++ s /\
    attempts (eX_loop size A' hex i' data m log') = log' ++ s /\
    final (eX_loop size A hex i data m log)
    = final (eX_loop size A' hex i' data m log') /\
    outcome (eX_loop size A hex i data m log)
    = outcome (eX_loop size A' hex i' data m log').
Proof.
  induction data as [|item data IH]; intros i i' m log log' Heq; simpl.
  - exists []. rewrite !app_nil_r. auto.
  - destruct (eX_bytes size hex item) as [bytes|e].
    + rewrite <- Heq.
      destruct (write m (A + i * size) bytes) as [m'|].
      * destruct (IH (i + 1) (i' + 1) m' (log ++ [(A + i * size, bytes)])
                    (log' ++ [(A + i * size, bytes)]))
          as (s & H1 & H2 & H3 & H4); [lia|].
        exists ((A + i * size, bytes) :: s).
        rewrite H1, H2, <- !app_assoc. auto.
      * exists [(A + i * size, bytes)]. simpl. auto.
    + exists []. simpl. rewrite !app_nil_r. auto.
Qed.

(** X12: with [hex] true, an item with a character that is no hexadecimal
    digit ends the run with the decoding error: the items before it stay
    written, and nothing is attempted for it or after it. *)
Theorem eX_bad_item (m : Mem) (size : Z) (address : Arg)
    (pre post : list string) (item : string)
    (m_i : Mem) (log_i : list (Z * list byte)) :
  eX commands_fix m size address pre true
  = {| final := m_i; attempts := log_i; outcome := Ok tt |} ->
  is_hex item = false ->
  eX commands_fix m size address (pre ++ item :: post) true
  = {| final := m_i; attempts := log_i; outcome := Raise BinasciiError |}.
Proof.
  intros Hpre Hbad. unfold eX in *.
  rewrite windbg_facts.eX_loop_app. cbv zeta. rewrite Hpre.
  cbn [outcome final attempts eX_loop].
  unfold eX_bytes.
  destruct (decode_hex (rjust (size * 2) "0" item)) as [bs|e] eqn:Hd.
  - apply decode_hex_is_hex in Hd. unfold rjust in Hd.
    rewrite is_hex_replicate_zero in Hd. congruence.
  - apply (decode_hex_raises _ _ _ (Nat.le_refl _)) in Hd. subst e.
    reflexivity.
Qed.

(** X13: patching [pre ++ post] at an address is patching [pre] there
    and then [post] at the address [len pre * size] further on, when the
    first part is written without failure. *)
Theorem eX_concat (m : Mem) (size : Z) (address address2 : Arg)
    (pre post : list string) (hex : bool) :
  commands_fix address2 = commands_fix address + len pre * size ->
  outcome (eX commands_fix m size address pre hex) = Ok tt ->
  let r1 := eX commands_fix m size address pre hex in
  let r2 := eX commands_fix (final r1) size address2 post hex in
  eX commands_fix m size address (pre ++ post) hex
  = {| final := final r2;
       attempts := attempts r1 ++ attempts r2;
       outcome := outcome r2 |}.
Proof.
  intros Haddr Hpre. cbv zeta. unfold eX in *.
  rewrite windbg_facts.eX_loop_app. cbv zeta. rewrite Hpre.
  set (r1 := eX_loop size (commands_fix address) hex 0 pre m []) in *.
  destruct (eX_loop_shift size (commands_fix address) (commands_fix address2)
              hex post (0 + len pre) 0 (final r1) (attempts r1) [])
    as (s & H1 & H2 & H3 & H4); [lia|].
  simpl in H2. rewrite <- H2 in H1. clear H2 s.
  revert H1 H3 H4.
  generalize (eX_loop size (commands_fix address) hex (0 + len pre) post
                (final r1) (attempts r1)).
  intros [f a o] H1 H3 H4. simpl in *. congruence.
Qed.

(** X15: with [hex] true, an item of at most [size * 2] hexadecimal
    digits always decodes, to exactly [size] bytes. *)
Theorem eX_short_item (size : Z) (item : string) :
  is_hex item = true ->
  Z.of_nat (String.length item) <= size * 2 ->
  exists bytes : list byte,
    eX_bytes size true item = Ok bytes /\ len bytes = size.
Proof.
  intros Hhex Hlen. unfold eX_bytes.
  pose proof (rjust_short (size * 2) "0" item Hlen) as Hpad.
  destruct (decode_hex_total (Z.to_nat size) (rjust (size * 2) "0" item))
    as (bytes & Hd).
  - lia.
  - unfold rjust. rewrite is_hex_replicate_zero. exact Hhex.
  - exists bytes. split; [exact Hd|].
    apply decode_hex_length in Hd. unfold len. lia.
Qed.

End Props.
End patch_props.

(** ** Writing strings *)

Module ez_props.
Import windbg.

Section Props.
Context {Mem : Type} {port : MemoryPort Mem}.
Context {Arg : Type}.
Variable commands_fix : Arg -> Z.

(** X16: [ez] with no argument raises [IndexError]; with a string it
    ignores the arguments after it and writes the string one character at
    a time, character [j] as one byte at [address + j]; a run that ends
    well wrote every character. *)
Theorem ez_writes_characters (m : Mem) (address : Arg) (s : string)
    (others : list pyseq) :
  ez commands_fix m address [] = Raise IndexError /\
  exists r : run,
    ez commands_fix m address (PyStr s :: others) = Ok r /\
    (forall (j : nat) (target : Z) (bytes : list byte),
       attempts r !! j = Some (target, bytes) ->
       exists c : ascii,
         list_ascii_of_string s !! j = Some c /\
         target = commands_fix address + Z.of_nat j /\
         bytes = [byte_of_ascii c]) /\
    (outcome r = Ok tt -> length (attempts r) = String.length s).
Proof.
  split; [reflexivity|].
  exists (eX commands_fix m 1 address (py_iter (PyStr s)) false).
  split; [reflexivity|].
  destruct (windbg_facts.eX_attempts commands_fix m 1 address
              (py_iter (PyStr s)) false) as (Hnth & Hall).
  split.
  - intros j target bytes H. rewrite patch_props.lookup_nth_error in H.
    destruct (Hnth j target bytes H) as (item & Hitem & Ht & Hb).
    rewrite <- patch_props.lookup_nth_error in Hitem.
    simpl in Hitem. rewrite lookup_map in Hitem.
    destruct (list_ascii_of_string s !! j) as [c|]; [|discriminate].
    simpl in Hitem. injection Hitem as <-.
    exists c. split; [reflexivity|]. split; [lia|].
    simpl in Hb. injection Hb as <-. reflexivity.
  - intros Hok. rewrite (Hall Hok). simpl.
    rewrite length_map. apply patch_props.length_list_ascii.
Qed.

(** X17: [eza] never raises [IndexError]; it writes its argument [j]
    whole, as one write at [address + j], so that each string starts one
    byte after the one before it. *)
Theorem eza_writes_strings (m : Mem) (address : Arg) (data : list string) :
  exists r : run,
    eza commands_fix m address data = Ok r /\
    (forall (j : nat) (target : Z) (bytes : list byte),
       attempts r !! j = Some (target, bytes) ->
       exists item : string,
         data !! j = Some item /\
         target = commands_fix address + Z.of_nat j /\
         bytes = list_byte_of_string item).
Proof.
  exists (eX commands_fix m 1 address data false).
  split; [reflexivity|].
  destruct (windbg_facts.eX_attempts commands_fix m 1 address data false)
    as (Hnth & _).
  intros j target bytes H. rewrite patch_props.lookup_nth_error in H.
  destruct (Hnth j target bytes H) as (item & Hitem & Ht & Hb).
  exists item. rewrite patch_props.lookup_nth_error.
  split; [exact Hitem|]. split; [lia|].
  simpl in Hb. injection Hb as <-. reflexivity.
Qed.

(** The bytes a run of one-byte items leaves in a memory that keeps the
    law of byte-wise access. *)
Lemma eb_loop_memory (law : byte_port_law) (A : Z) :
  forall (items : list string) (bs : list byte),
  Forall2 (fun item b => eX_bytes 1 true item = Ok [b]) items bs ->
  forall (i : Z) (m : Mem) (log : list (Z * list byte)) (x : Z),
  outcome (eX_loop 1 A true i items m log) = Ok tt ->
  poi (final (eX_loop 1 A true i items m log)) uint8 x
  = match written (A + i) bs x with
    | Some b => Some (byte_value b)
    | None => poi m uint8 x
    end.
Proof.
  induction 1 as [|item b items bs Hb _ IH]; intros i m log x Hok.
  - simpl. rewrite patch_props.written_nil. reflexivity.
  - cbn [eX_loop] in *. rewrite Hb in *.
    replace (A + i * 1) with (A + i) in * by lia.
    destruct (write m (A + i) [b]) as [m'|] eqn:Hw; [|discriminate].
    rewrite (IH (i + 1) m' _ x Hok).
    rewrite (law m m' (A + i) [b] x Hw).
    rewrite !patch_props.written_cons, patch_props.written_nil.
    replace (A + (i + 1)) with (A + i + 1) by lia.
    destruct (Z.eqb_spec x (A + i)) as [->|Hne]; [|reflexivity].
    rewrite patch_props.written_before by lia. reflexivity.
Qed.

(** X18: round trip.  In a memory that keeps the law of byte-wise access,
    after [eb] wrote its items without failure, each item one byte, [db]
    at the same address with their number as count reads exactly these
    bytes and returns the lines that render them: each line the label and
    then the bytes of the row through [enhex], the rows holding exactly
    the bytes written. *)
Theorem eb_db_round_trip (m : Mem) (address : Arg) (items : list string)
    (bs : list byte) :
  byte_port_law ->
  Forall2 (fun item b => eX_bytes 1 true item = Ok [b]) items bs ->
  len items < 2 ^ 53 ->
  outcome (eb commands_fix m address items) = Ok tt ->
  let m' := final (eb commands_fix m address items) in
  let A := commands_fix address in
  dX_values m' uint8 1 A (len items) = map byte_value bs /\
  db m' A (Some (len items))
  = Ok (imap (fun i row =>
                join " " (enhex ptrsize (A + Z.of_nat i + 16)
                          :: map (enhex 1) row))
          (dX_rows (map byte_value bs) 1 (ceil16 (len items)))) /\
  concat (dX_rows (map byte_value bs) 1 (ceil16 (len items)))
  = map byte_value bs.
Proof.
  intros law Hitems Hsmall Hok m' A.
  assert (Hlen : length items = length bs)
    by (eapply Forall2_length; exact Hitems).
  assert (Hv : dX_values m' uint8 1 A (len items) = map byte_value bs).
  { unfold dX_values, len.
    rewrite (windbg_facts.dX_read_prefix m' uint8 1 A _ 0 []
               (map byte_value bs)).
    - reflexivity.
    - rewrite length_map. lia.
    - intros j v Hj. unfold m', eb, eX in *.
      rewrite (eb_loop_memory law A items bs Hitems 0 m [] _ Hok).
      replace (A + (0 + Z.of_nat j) * 1) with (A + 0 + Z.of_nat j) by lia.
      rewrite patch_props.written_at.
      rewrite nth_error_map in Hj.
      destruct (nth_error bs j); [|discriminate].
      simpl in Hj. injection Hj as <-. reflexivity.
    - rewrite length_map. lia. }
  assert (Hn : n_rows (len items) 1 = Ok (ceil16 (len items))).
  { rewrite windbg_facts.n_rows_exact by (unfold len in *; lia).
    rewrite Z.mul_1_r. reflexivity. }
  split; [exact Hv|]. split.
  - unfold db. simpl default.
    rewrite (windbg_facts.dX_ok m' 1 A (len items) uint8 _ eq_refl Hn), Hv.
    reflexivity.
  - apply (windbg_facts.dX_rows_concat _ 1 _ uint8 eq_refl).
    destruct (windbg_facts.ceil16_covers 1 (len items) uint8 eq_refl)
      as [_ Hc].
    rewrite Z.mul_1_r in Hc. unfold len in *. rewrite length_map. lia.
Qed.

End Props.
End ez_props.

(** ** The byte-addressable memory keeps the law of byte-wise access *)

Module bytemem_facts.
Import bytemem.

Lemma read_uint8 (m : gmap Z byte) (x : Z) :
  readInteger m uint8 x = byte_value <$> m !! x.
Proof.
  unfold readInteger, read_bytes.
  change (windbg.range (sizeof uint8)) with [0]. simpl.
  rewrite Z.add_0_r. destruct (m !! x) as [b|]; simpl; [|reflexivity].
  f_equal. unfold byte_value. lia.
Qed.

Lemma store_lookup (bs : list byte) : forall (m : gmap Z byte) (a x : Z),
  store m a bs !! x
  = match written a bs x with
    | Some b => Some b
    | None => m !! x
    end.
Proof.
  induction bs as [|b bs IH]; intros m a x; simpl.
  - rewrite patch_props.written_nil. reflexivity.
  - rewrite IH, patch_props.written_cons.
    destruct (Z.eqb_spec x a) as [->|Hne].
    + rewrite patch_props.written_before by lia.
      apply lookup_insert_eq.
    + destruct (written (a + 1) bs x); [reflexivity|].
      apply lookup_insert_ne. congruence.
Qed.

Lemma law : byte_port_law (port := port).
Proof.
  intros m m' a bs x Hw. simpl in *. unfold writeBytes in Hw.
  destruct (read_bytes m a (len bs)); [|discriminate].
  injection Hw as <-.
  rewrite !read_uint8, store_lookup.
  destruct (written a bs x); reflexivity.
Qed.

End bytemem_facts.

(** ** The further properties on the byte-addressable memory *)

Module more_examples.
Import chain windbg bytemem fixtures.

Lemma get_links_on_ladder :
  poi ladder ppvoid 4096 = Some 4104.
Proof.
  apply (chain_props.get_links ladder 4096 5 0 4096 4104); reflexivity.
Defined.

Lemma get_stops_early_on_cycle :
  exists (pre : list Z) (x : Z),
    get self_pointer 4096 5 = pre ++ [x] /\
    (poi self_pointer ppvoid x = None \/
     exists v, poi self_pointer ppvoid x = Some v /\
               2 <= py_count (get self_pointer 4096 5) v).
Proof.
  apply (chain_props.get_stops_early self_pointer 4096 5).
  vm_compute. reflexivity.
Defined.

Lemma get_limit_monotone_on_ladder :
  exists suffix : list Z, get ladder 4096 5 = get ladder 4096 2 ++ suffix.
Proof. apply (chain_props.get_limit_monotone ladder 4096 2 5). lia. Defined.

Lemma enhex_length_of_dword :
  Z.of_nat (String.length (enhex 4 4660)) = 4 * 2.
Proof.
  apply (dump_props.enhex_length 4 4660); [lia | vm_compute; reflexivity].
Defined.

Lemma dX_row_size_of_last_row :
  len [48; 49] = Z.max 0 (Z.min (16 / 1) (len first50 - Z.of_nat 3 * (16 / 1))).
Proof.
  apply (dump_props.dX_row_size first50 1 7 uint8 3 [48; 49]); reflexivity.
Defined.

Lemma dX_bare_label_after_50 :
  "0000000000001014"%string = enhex ptrsize (4096 + Z.of_nat 4 + 16).
Proof.
  apply (dump_props.dX_bare_label (counting 4096 50) 1 4096 100 uint8
           ["0000000000001010 00 01 02 03 04 05 06 07 08 09 0a 0b 0c 0d 0e 0f";
            "0000000000001011 10 11 12 13 14 15 16 17 18 19 1a 1b 1c 1d 1e 1f";
            "0000000000001012 20 21 22 23 24 25 26 27 28 29 2a 2b 2c 2d 2e 2f";
            "0000000000001013 30 31"; "0000000000001014";
            "0000000000001015"; "0000000000001016"]%string 4);
    vm_compute; (reflexivity || discriminate).
Defined.

Lemma dX_no_lines_for_count_0 :
  dX (counting 4096 50) 4 4096 0 = Ok [].
Proof.
  apply (dump_props.dX_no_lines (counting 4096 50) 4 4096 0 uint32 eq_refl);
    [reflexivity | lia].
Defined.

Lemma eX_bad_item_second :
  eX (fun a : Z => a) (zeros 4096 16) 1 4096
    (["41"%string] ++ "zz"%string :: ["43"%string]) true
  = {| final := store (zeros 4096 16) 4096 [x41];
       attempts := [(4096, [x41])];
       outcome := Raise BinasciiError |}.
Proof.
  apply (patch_props.eX_bad_item (fun a : Z => a) (zeros 4096 16) 1 4096
           ["41"%string] ["43"%string] "zz");
    vm_compute; reflexivity.
Defined.

Lemma eX_concat_two_and_one :
  eX (fun a : Z => a) (zeros 4096 16) 2 4096
    (["1122"%string; "3344"%string] ++ ["5566"%string]) true
  = {| final :=
         final (eX (fun a : Z => a)
                  (final (eX (fun a : Z => a) (zeros 4096 16) 2 4096
                            ["1122"%string; "3344"%string] true))
                  2 4100 ["5566"%string] true);
       attempts :=
         attempts (eX (fun a : Z => a) (zeros 4096 16) 2 4096
                     ["1122"%string; "3344"%string] true)
         ++ attempts (eX (fun a : Z => a)
                        (final (eX (fun a : Z => a) (zeros 4096 16) 2 4096
                                  ["1122"%string; "3344"%string] true))
                        2 4100 ["5566"%string] true);
       outcome :=
         outcome (eX (fun a : Z => a)
                    (final (eX (fun a : Z => a) (zeros 4096 16) 2 4096
                              ["1122"%string; "3344"%string] true))
                    2 4100 ["5566"%string] true) |}.
Proof.
  apply (patch_props.eX_concat (fun a : Z => a) (zeros 4096 16) 2 4096 4100
           ["1122"%string; "3344"%string] ["5566"%string] true);
    vm_compute; reflexivity.
Defined.

Lemma eX_short_item_of_one_digit :
  exists bytes : list byte, eX_bytes 4 true "1" = Ok bytes /\ len bytes = 4.
Proof.
  apply (patch_props.eX_short_item 4 "1"); [reflexivity | vm_compute].
  discriminate.
Defined.

Lemma eb_db_round_trip_41_42 :
  dX_values (final (eb (fun a : Z => a) (zeros 4096 16) 4096
                      ["41"%string; "42"%string]))
    uint8 1 4096 (len ["41"%string; "42"%string])
  = [65; 66] /\
  db (final (eb (fun a : Z => a) (zeros 4096 16) 4096
               ["41"%string; "42"%string]))
    4096 (Some (len ["41"%string; "42"%string]))
  = Ok ["0000000000001010 41 42"%string].
Proof.
  destruct (ez_props.eb_db_round_trip (fun a : Z => a) (zeros 4096 16) 4096
              ["41"%string; "42"%string] [x41; x42])
    as (Hv & Hlines & _).
  - exact bytemem_facts.law.
  - repeat constructor.
  - reflexivity.
  - vm_compute. reflexivity.
  - split; [exact Hv|]. rewrite Hlines. vm_compute. reflexivity.
Defined.

End more_examples.
